(** * wfmk: a shallow embedding of the warframe.market command-line client

    The development follows [wfmk.py] function by function.  Python values
    are modelled as follows.

    - [str] is [string]: the model covers ASCII text; a character above
      code 127 is treated as having no case and as being neither a digit
      nor a word character.
    - [int] is [Z] (Python integers are unbounded).
    - [datetime] and [timedelta] have microsecond resolution; a point in
      time is a [Z] number of microseconds.
    - An uncaught exception is the [Raise] outcome of a call.
    - [float] is binary64; a finite float is modelled by the rational it
      stands for, and every operation rounds as the hardware does. *)

From Stdlib Require Import ZArith QArith Qabs Lia Bool Ascii String List.
From Stdlib Require Import Sorting.Sorted Sorting.Permutation.
From stdpp Require Import base gmap strings list sorting.

Open Scope Z_scope.

(** ** Outcomes of calls *)

Inductive exn : Type :=
| OverflowError
| OSError_ENOTDIR
| OSError_ENAMETOOLONG
| NameError
| FileNotFoundError
| IsADirectoryError
| JSONDecodeError
| ZeroDivisionError
| ValueError
| StatisticsError
| SystemExit (code : Z).

Inductive outcome (A : Type) : Type :=
| Ret (a : A)
| Raise (e : exn).

Arguments Ret {A} a.
Arguments Raise {A} e.

Definition obind {A B : Type} (x : outcome A) (f : A -> outcome B) : outcome B :=
  match x with
  | Ret a => f a
  | Raise e => Raise e
  end.

Notation "'let*' x ':=' c1 'in' c2" := (obind c1 (fun x => c2))
  (at level 10, x name, c1 at level 100, c2 at level 200).

(** ** Characters *)

Definition code (c : ascii) : Z := Z.of_nat (nat_of_ascii c).

(** [\d] on ASCII text. *)
Definition is_digit (c : ascii) : bool := (48 <=? code c) && (code c <=? 57).

Definition LF : ascii := ascii_of_nat 10.

Fixpoint all_digits (s : string) : bool :=
  match s with
  | EmptyString => true
  | String c s' => is_digit c && all_digits s'
  end.

(** ** Numbers *)

(** [round(x)]: to the nearest integer, a tie to the even one. *)
Definition py_round (q : Q) : Z :=
  let n := Qnum q in
  let d := Zpos (Qden q) in
  let f := n / d in
  let r := n mod d in
  if 2 * r <? d then f
  else if d <? 2 * r then f + 1
  else if Z.even f then f else f + 1.

(** ** Floating-point numbers

    A [float] is a binary64 number: 53 significant bits, the last of
    weight [2 ^ e] with [-1074 <= e <= 971].  A finite float is the
    rational it stands for; a result that does not fit raises
    [OverflowError], as the integer operations below do in Python. *)

Module Float.

Definition emin : Z := -1074.

(** [n / d] for [0 < d], to the nearest integer, a tie to the even one. *)
Definition div_half_even (n d : Z) : Z :=
  let f := n / d in
  let r := n mod d in
  if 2 * r <? d then f
  else if d <? 2 * r then f + 1
  else if Z.even f then f else f + 1.

(** The integer [g] with [2 ^ g <= a / b < 2 ^ (g + 1)], for positive [a]
    and [b]. *)
Definition floor_log2 (a b : Z) : Z :=
  let g := Z.log2 a - Z.log2 b in
  if 0 <=? g then (if b * 2 ^ g <=? a then g else g - 1)
  else (if b <=? a * 2 ^ (- g) then g else g - 1).

(** The number [m * 2 ^ e]. *)
Definition ldexp (m e : Z) : Q :=
  if 0 <=? e then inject_Z (m * 2 ^ e) else Qmake m (Z.to_pos (2 ^ (- e))).

(** The float [m * 2 ^ e], unless it reaches [2 ^ 1024]. *)
Definition finite (m e : Z) : outcome Q :=
  if (0 <=? e) && (2 ^ 1024 <=? Z.abs m * 2 ^ e) then Raise OverflowError
  else Ret (ldexp m e).

(** [a / b] on integers with [0 < b], which is also [float(Fraction(a, b))]:
    the float nearest to the quotient, a tie to the one with an even last
    bit. *)
Definition true_divide (a b : Z) : outcome Q :=
  if a =? 0 then Ret 0%Q
  else
    let e := Z.max emin (floor_log2 (Z.abs a) b - 52) in
    let m :=
      if 0 <=? e then div_half_even (Z.abs a) (b * 2 ^ e)
      else div_half_even (Z.abs a * 2 ^ (- e)) b in
    finite (Z.sgn a * m) e.

(** The square root of [n / d] for [0 <= n] and [0 < d], to the nearest
    integer, a tie to the even one. *)
Definition sqrt_half_even (n d : Z) : Z :=
  let r := Z.sqrt (n / d) in
  let h := (2 * r + 1) * (2 * r + 1) * d in
  if 4 * n <? h then r
  else if h <? 4 * n then r + 1
  else if Z.even r then r else r + 1.

(** [statistics._float_sqrt_of_frac(n, m)] for [0 < m]: the float nearest
    to the square root of [n / m]. *)
Definition _float_sqrt_of_frac (n m : Z) : outcome Q :=
  if n <? 0 then Raise ValueError
  else if n =? 0 then Ret 0%Q
  else
    let e := Z.max emin (floor_log2 n m / 2 - 52) in
    let r :=
      if 0 <=? e then sqrt_half_even n (m * 4 ^ e)
      else sqrt_half_even (n * 4 ^ (- e)) m in
    finite r e.

End Float.

(** ** The TTL parser *)

Module TTL.

(** [datetime.timedelta], normalised as CPython stores it:
    [0 <= seconds < 86400] and [0 <= microseconds < 1000000]. *)
Record timedelta : Type := mk_timedelta {
  days : Z;
  seconds : Z;
  microseconds : Z
}.

Definition MAX_DELTA_DAYS : Z := 999999999.

(** The duration of [us] microseconds, before the range check. *)
Definition of_microseconds (us : Z) : timedelta :=
  {| days := us / 86400000000;
     seconds := (us mod 86400000000) / 1000000;
     microseconds := us mod 1000000 |}.

Definition of_seconds (s : Z) : timedelta := of_microseconds (s * 1000000).

(** The [timedelta] constructor called with integer keyword arguments
    among [days], [hours], [minutes] and [seconds]; a missing keyword
    defaults to 0.  The
    constructor raises [OverflowError] when the normalised number of days
    leaves [-999999999 .. 999999999]. *)
Definition kwarg (kw : list (string * Z)) (k : string) : Z :=
  match List.find (fun p => String.eqb (fst p) k) kw with
  | Some p => snd p
  | None => 0
  end.

Definition timedelta_new (kw : list (string * Z)) : outcome timedelta :=
  let total :=
    kwarg kw "days" * 86400 + kwarg kw "hours" * 3600
    + kwarg kw "minutes" * 60 + kwarg kw "seconds" in
  let td := of_seconds total in
  if Z.abs (days td) <=? MAX_DELTA_DAYS then Ret td else Raise OverflowError.

(** [int(v)] for a string of decimal digits.  Interpreters that limit the
    length of the digit string (4300 digits by default, from CPython 3.11
    on) raise [ValueError] on a longer one; the statements about [int]
    below are made for strings within that limit. *)
Fixpoint int_acc (acc : Z) (s : string) : Z :=
  match s with
  | EmptyString => acc
  | String c s' => int_acc (10 * acc + (code c - 48)) s'
  end.

Definition int (s : string) : Z := int_acc 0 s.

(** The longest prefix of digits, and what follows it. *)
Fixpoint span_digits (s : string) : string * string :=
  match s with
  | EmptyString => (EmptyString, EmptyString)
  | String c s' =>
      if is_digit c
      then let (ds, rest) := span_digits s' in (String c ds, rest)
      else (EmptyString, s)
  end.

(** Python's [$] (without [re.MULTILINE]) matches at the end of the subject
    and also just before a line feed that ends the subject. *)
Definition at_dollar (rest : string) : bool :=
  match rest with
  | EmptyString => true
  | String c EmptyString => Ascii.eqb c LF
  | _ => false
  end.

(** One alternative [(?P<g>\d+?)u] of the pattern followed by [$], where [u]
    is the unit letter; [optional] is the [?] after the letter of the last
    alternative.  The lazy [\d+?] has to take every digit in front of the
    letter, since neither the letter nor [$] matches in front of a digit. *)
Definition match_alt (u : ascii) (optional : bool) (s : string) : option string :=
  let (ds, rest) := span_digits s in
  match ds with
  | EmptyString => None
  | _ =>
      match rest with
      | String c rest' =>
          if Ascii.eqb c u && at_dollar rest' then Some ds
          else if optional && at_dollar rest then Some ds
          else None
      | EmptyString => if optional then Some ds else None
      end
  end.

(** [re.match(r'^((?P<days>\d+?)d|(?P<hours>\d+?)h|(?P<minutes>\d+?)m'
              r'|(?P<seconds>\d+?)s?)$', time_str).groupdict()]:
    the alternatives are tried from left to right and the groups of the
    alternatives not taken are [None]. *)
Definition groupdict (s : string) : option (list (string * option string)) :=
  match match_alt "d" false s with
  | Some v => Some [("days", Some v); ("hours", None); ("minutes", None); ("seconds", None)]
  | None =>
  match match_alt "h" false s with
  | Some v => Some [("days", None); ("hours", Some v); ("minutes", None); ("seconds", None)]
  | None =>
  match match_alt "m" false s with
  | Some v => Some [("days", None); ("hours", None); ("minutes", Some v); ("seconds", None)]
  | None =>
  match match_alt "s" true s with
  | Some v => Some [("days", None); ("hours", None); ("minutes", None); ("seconds", Some v)]
  | None => None
  end end end end%string.

(** [{k: int(v) for k, v in parts.items() if v}] *)
Fixpoint time_params (parts : list (string * option string)) : list (string * Z) :=
  match parts with
  | [] => []
  | (k, Some (String c v)) :: parts' => (k, int (String c v)) :: time_params parts'
  | (_, _) :: parts' => time_params parts'
  end.

Definition StrToTimeDelta (time_str : string) : outcome (option timedelta) :=
  match time_str with
  | EmptyString => Ret None
  | _ =>
      match groupdict time_str with
      | None => Ret None
      | Some parts =>
          obind (timedelta_new (time_params parts)) (fun td => Ret (Some td))
      end
  end.

End TTL.

(** ** Regular expressions

    The fragment of Python's [re] that the program uses through
    [fnmatch.translate] and through the abbreviation table, compiled with
    [re.IGNORECASE]: a pattern is a sequence of pieces, matched by
    backtracking from left to right. *)

Module Re.

Definition is_upper (c : ascii) : bool := (65 <=? code c) && (code c <=? 90).
Definition is_lower (c : ascii) : bool := (97 <=? code c) && (code c <=? 122).

Definition lower (c : ascii) : ascii :=
  if is_upper c then ascii_of_nat (nat_of_ascii c + 32) else c.

Definition upper (c : ascii) : ascii :=
  if is_lower c then ascii_of_nat (nat_of_ascii c - 32) else c.

(** [\w] on ASCII text. *)
Definition is_word (c : ascii) : bool :=
  is_upper c || is_lower c || is_digit c || Ascii.eqb c "_".

Definition eq_nocase (a b : ascii) : bool := Ascii.eqb (lower a) (lower b).

(** A member of a bracketed set: one character or a range.  A range whose
    end lies below its start has no member: recent versions of
    [fnmatch.translate] drop such a range, older ones hand it to [re], which
    rejects the pattern with [re.error]. *)
Inductive item : Type :=
| ILit (c : ascii)
| IRange (lo hi : ascii).

Inductive atom : Type :=
| Lit (c : ascii)
| Any
| Class (negate : bool) (items : list item).

Inductive piece : Type :=
| One (a : atom)
| Opt (a : atom)
| Star (a : atom)
| WordB
| EndZ.

Definition regex : Type := list piece.

Definition in_range (lo hi c : ascii) : bool :=
  (code lo <=? code c) && (code c <=? code hi).

(** Under [re.IGNORECASE] a set member matches a character when it matches
    one of its case variants. *)
Definition item_matches (it : item) (c : ascii) : bool :=
  match it with
  | ILit x => eq_nocase x c
  | IRange lo hi => in_range lo hi c || in_range lo hi (lower c) || in_range lo hi (upper c)
  end.

Definition atom_matches (a : atom) (c : ascii) : bool :=
  match a with
  | Lit x => eq_nocase x c
  | Any => true
  | Class negate items => xorb negate (existsb (fun it => item_matches it c) items)
  end.

Definition is_word_opt (c : option ascii) : bool :=
  match c with
  | Some x => is_word x
  | None => false
  end.

Definition head (s : string) : option ascii :=
  match s with
  | EmptyString => None
  | String c _ => Some c
  end.

(** [\b]: exactly one of the characters before and after the position is a
    word character. *)
Definition word_boundary (prev : option ascii) (s : string) : bool :=
  xorb (is_word_opt prev) (is_word_opt (head s)).

(** [match_here ps prev s] matches [ps] at the front of [s], where [prev] is
    the character in front of [s] in the subject, and returns what is left
    of [s] after the first match in backtracking order ([?] and [*] are
    greedy). *)
Fixpoint match_here (ps : regex) (prev : option ascii) (s : string) : option string :=
  match ps with
  | [] => Some s
  | One a :: ps' =>
      match s with
      | String c s' => if atom_matches a c then match_here ps' (Some c) s' else None
      | EmptyString => None
      end
  | Opt a :: ps' =>
      match s with
      | String c s' =>
          if atom_matches a c then
            match match_here ps' (Some c) s' with
            | Some rest => Some rest
            | None => match_here ps' prev s
            end
          else match_here ps' prev s
      | EmptyString => match_here ps' prev s
      end
  | Star a :: ps' =>
      (fix star (prev : option ascii) (s : string) : option string :=
         match s with
         | String c s' =>
             if atom_matches a c then
               match star (Some c) s' with
               | Some rest => Some rest
               | None => match_here ps' prev s
               end
             else match_here ps' prev s
         | EmptyString => match_here ps' prev s
         end) prev s
  | WordB :: ps' => if word_boundary prev s then match_here ps' prev s else None
  | EndZ :: ps' =>
      match s with
      | EmptyString => match_here ps' prev s
      | String _ _ => None
      end
  end.

(** [pattern.match(s)]: a match anchored at the start of the subject. *)
Definition re_match (ps : regex) (s : string) : bool :=
  match match_here ps None s with
  | Some _ => true
  | None => false
  end.

(** [pattern.sub(repl, s)] for a replacement without group references:
    the subject is scanned from left to right and every match found is
    replaced; [skip] counts the characters of the current match that are
    still to be dropped.  No pattern of the abbreviation table matches the
    empty string, so the two branches for an empty match are not reached. *)
Fixpoint sub_from (ps : regex) (repl : string) (prev : option ascii)
    (s : string) (skip : nat) : string :=
  match s with
  | EmptyString =>
      match match_here ps prev EmptyString with
      | Some _ => repl
      | None => EmptyString
      end
  | String c s' =>
      match skip with
      | S k => sub_from ps repl (Some c) s' k
      | O =>
          match match_here ps prev s with
          | Some rest =>
              match (String.length s - String.length rest)%nat with
              | S k => repl +:+ sub_from ps repl (Some c) s' k
              | O => repl +:+ String c (sub_from ps repl (Some c) s' 0)
              end
          | None => String c (sub_from ps repl (Some c) s' 0)
          end
      end
  end.

Definition sub (ps : regex) (repl : string) (s : string) : string :=
  sub_from ps repl None s 0.

(** [re.compile] on the patterns of the abbreviation table: literal
    characters, a [?] after a character, and [\b]. *)
Fixpoint compile (s : string) : regex :=
  match s with
  | EmptyString => []
  | String "\" (String "b" s') => WordB :: compile s'
  | String c (String "?" s') => Opt (Lit c) :: compile s'
  | String c s' => One (Lit c) :: compile s'
  end%char.

End Re.

(** ** The name resolver *)

Module Resolver.

Import Re.

(** An entry of the item catalog. *)
Record Item : Type := mk_Item {
  item_name : string;
  url_name : string
}.

(** Offset of the first right bracket of [s]. *)
Fixpoint index_of_close (s : string) : option nat :=
  match s with
  | EmptyString => None
  | String c s' =>
      if Ascii.eqb c "]" then Some O
      else match index_of_close s' with
           | Some j => Some (S j)
           | None => None
           end
  end.

(** The scan of [fnmatch.translate] after a left bracket: an exclamation
    mark and then a right bracket at the front do not close the set.  The
    result is the offset [j - i] of the closing bracket. *)
Definition close_index (rest : string) : option nat :=
  let '(j1, r1) :=
    match rest with
    | String "!" r => (1%nat, r)
    | _ => (O, rest)
    end in
  let '(j2, r2) :=
    match r1 with
    | String "]" r => (S j1, r)
    | _ => (j1, r1)
    end in
  match index_of_close r2 with
  | Some k => Some (j2 + k)%nat
  | None => None
  end.

(** The members of a set, as [re] reads the text between the brackets:
    a hyphen between two characters makes a range. *)
Fixpoint parse_items (s : string) : list item :=
  match s with
  | EmptyString => []
  | String c1 (String "-" (String c2 s')) => IRange c1 c2 :: parse_items s'
  | String c1 s' => ILit c1 :: parse_items s'
  end.

(** The set written [stuff] between brackets: a leading exclamation mark
    negates it. *)
Definition class_of (stuff : string) : atom :=
  match stuff with
  | String "!" body => Class true (parse_items body)
  | _ => Class false (parse_items stuff)
  end.

(** [fnmatch.translate], producing the compiled pattern: [skip] counts the
    characters of a bracketed set that the index [i] jumps over. *)
Fixpoint translate_from (pat : string) (skip : nat) : regex :=
  match pat with
  | EmptyString => [EndZ]
  | String c rest =>
      match skip with
      | S k => translate_from rest k
      | O =>
          if Ascii.eqb c "*" then Star Any :: translate_from rest 0
          else if Ascii.eqb c "?" then One Any :: translate_from rest 0
          else if Ascii.eqb c "[" then
            match close_index rest with
            | None => One (Lit "[") :: translate_from rest 0
            | Some j =>
                One (class_of (String.substring 0 j rest))
                  :: translate_from rest (S j)
            end
          else One (Lit c) :: translate_from rest 0
      end
  end.

Definition translate (pat : string) : regex := translate_from pat 0.

Definition _nr_init (pattern repl : string) : regex * string :=
  (compile ("\b" +:+ pattern +:+ "\b"), repl).

Definition name_replacements : list (regex * string) :=
  [ _nr_init "brl" "Barrel";
    _nr_init "bld" "Blade";
    _nr_init "bp" "Blueprint";
    _nr_init "cara?" "Carapace";
    _nr_init "cere?" "Cerebrum";
    _nr_init "chas?s?" "Chassis";
    _nr_init "gtl?t?" "Gauntlet";
    _nr_init "hn?dl" "Handle";
    _nr_init "neur?" "Neuroptics";
    _nr_init "p" "Prime";
    _nr_init "rec" "Receiver";
    _nr_init "scul?" "Sculpture";
    _nr_init "stk" "Stock";
    _nr_init "str" "String";
    _nr_init "sys" "Systems" ].

Definition _FindMatchingItems (name : string) (all_items : list Item) : list string :=
  let pattern := translate name in
  fold_left
    (fun matches i =>
       if re_match pattern (item_name i) then matches ++ [item_name i] else matches)
    all_items [].

Definition FindMatchingItems (name : string) (all_items : list Item) : list string :=
  match _FindMatchingItems name all_items with
  | [] =>
      let name' := fold_left (fun n r => sub (fst r) (snd r) n) name_replacements name in
      _FindMatchingItems name' all_items
  | matches => matches
  end.

End Resolver.

(** ** Orders: filtering, sorting and the summary row *)

Module Orders.

Record User : Type := mk_User {
  status : string;
  ingame_name : string
}.

(** An entry of the order list of an item, with the keys the program reads. *)
Record Order : Type := mk_Order {
  order_type : string;
  platinum : Z;
  quantity : Z;
  platform : string;
  region : string;
  user : User
}.

(** The command-line options that the order pipeline reads. *)
Record Args : Type := mk_Args {
  args_platform : string;
  args_language : string;
  args_buyers : bool;
  args_reverse : bool
}.

Definition str_ne (a b : string) : bool := negb (String.eqb a b).

Definition FilterUsers (args : Args) (order : Order) : bool :=
  if String.eqb (status (user order)) "offline" then false
  else if str_ne (platform order) (args_platform args) then false
  else if str_ne (region order) (args_language args) then false
  else true.

Definition FilterBuyers (args : Args) (order : Order) : bool :=
  if str_ne (order_type order) "buy" then false
  else FilterUsers args order.

Definition FilterSellers (args : Args) (order : Order) : bool :=
  if str_ne (order_type order) "sell" then false
  else FilterUsers args order.

Definition GetPrice (order : Order) : Z := platinum order.

(** *** [list.sort]

    The sort is stable; with [reverse=True] the list is reversed, sorted
    and reversed again, which keeps equal keys in their original order. *)

Section Sort.
Context {A : Type} (key : A -> Z).

Fixpoint insert_sorted (x : A) (l : list A) : list A :=
  match l with
  | [] => [x]
  | y :: l' => if key x <=? key y then x :: l else y :: insert_sorted x l'
  end.

Definition stable_sort (l : list A) : list A := foldr insert_sorted [] l.

Definition list_sort (reverse : bool) (l : list A) : list A :=
  if reverse then rev (stable_sort (rev l)) else stable_sort l.
End Sort.

(** *** List objects

    A list is an object on the heap; a variable holds its address.
    [list(filter(flt, orders))] builds a new object and [orders.sort]
    changes the object it is called on. *)

Abbreviation heap := (list (list Order)).

Definition deref (h : heap) (a : nat) : list Order := default [] (h !! a).

Definition list_new (v : list Order) (h : heap) : nat * heap :=
  (length h, h ++ [v]).

Definition sort_in_place (key : Order -> Z) (reverse : bool) (a : nat) (h : heap) : heap :=
  alter (list_sort key reverse) a h.

(** The two statements of the main loop that select and order the orders
    of an item; the result is the new binding of the variable [orders]. *)
Definition filter_and_sort (args : Args) (orders : nat) (h : heap) : nat * heap :=
  let flt := if args_buyers args then FilterBuyers args else FilterSellers args in
  let '(orders', h1) := list_new (List.filter flt (deref h orders)) h in
  (orders', sort_in_place GetPrice (negb (Bool.eqb (args_buyers args) (args_reverse args))) orders' h1).

(** *** Built-in functions on lists of integers *)

Definition py_min (data : list Z) : outcome Z :=
  match data with
  | [] => Raise ValueError
  | x :: l => Ret (fold_left Z.min l x)
  end.

Definition py_max (data : list Z) : outcome Z :=
  match data with
  | [] => Raise ValueError
  | x :: l => Ret (fold_left Z.max l x)
  end.

(** [data.remove(x)]: drops the first occurrence of [x]. *)
Fixpoint list_remove (x : Z) (data : list Z) : outcome (list Z) :=
  match data with
  | [] => Raise ValueError
  | y :: l =>
      if y =? x then Ret l
      else let* l' := list_remove x l in Ret (y :: l')
  end.

Definition NoMinMax (data : list Z) : outcome (list Z) :=
  if (5 <? length data)%nat then
    let* lo := py_min data in
    let* data1 := list_remove lo data in
    let* hi := py_max data1 in
    list_remove hi data1
  else Ret data.

(** *** The [statistics] module on lists of integers

    The module sums exactly and converts at the end. *)

(** The exact sum that [statistics._sum] returns. *)
Definition _sum (data : list Z) : Z := fold_left Z.add data 0.

(** [statistics.mean]: the sum divided by the count; the quotient is
    returned as an [int] when the division is exact and as the float
    nearest to it otherwise. *)
Definition statistics_mean (data : list Z) : outcome Q :=
  match data with
  | [] => Raise StatisticsError
  | _ =>
      let total := _sum data in
      let n := Z.of_nat (length data) in
      if total mod n =? 0 then Ret (inject_Z (total / n))
      else Float.true_divide total n
  end.

(** [statistics.stdev]: with [sx] the sum and [sxx] the sum of the squares,
    the sum of the squared deviations from the mean is
    [(n * sxx - sx * sx) / n], exactly; the result is the float nearest to
    the square root of that sum divided by [n - 1]. *)
Definition statistics_stdev (data : list Z) : outcome Q :=
  match data with
  | [] | [_] => Raise StatisticsError
  | _ =>
      let n := Z.of_nat (length data) in
      let sx := _sum data in
      let sxx := _sum (map (fun x => x * x) data) in
      Float._float_sqrt_of_frac (n * sxx - sx * sx) (n * (n - 1))
  end.

(** *** The summary table *)

Inductive cell : Type :=
| CStr (s : string)
| CInt (z : Z).

Definition NA : cell := CStr "N/A".

Definition AddItemSummary (t : list (list cell)) (name : string)
    (orders : list Order) : outcome (list (list cell)) :=
  let count := length orders in
  let row := [CStr name; NA; NA; NA; NA; CInt (Z.of_nat count)] in
  let* row :=
    (if (0 <? count)%nat then
       let prices := map GetPrice orders in
       let* lo := py_min prices in
       let row := <[1%nat := CInt lo]> row in
       let* avg := statistics_mean (take 5 prices) in
       let row := <[2%nat := CInt (py_round avg)]> row in
       let* hi := py_max prices in
       let row := <[3%nat := CInt hi]> row in
       if (1 <? count)%nat then
         let* sd := statistics_stdev (take 5 prices) in
         Ret (<[4%nat := CInt (py_round sd)]> row)
       else Ret row
     else Ret row) in
  Ret (t ++ [row]).

End Orders.

(** ** The disk cache *)

Module Cache.

(** A path of the file system names a directory or a regular file; both
    carry a modification time. *)
Inductive node : Type :=
| Dir (mtime : Z)
| File (mtime : Z) (content : string).

Definition node_mtime (n : node) : Z :=
  match n with
  | Dir t => t
  | File t _ => t
  end.

(** The operations on the file system that a run performs, in order. *)
Inductive event : Type :=
| EvExists (path : string)
| EvIsdir (path : string)
| EvMakedirs (path : string)
| EvGetmtime (path : string)
| EvRead (path : string)
| EvWrite (path : string).

Record World : Type := mk_World {
  clock : Z;
  fs : gmap string node;
  log : list event
}.

(** A computation reads and changes the world and returns normally or
    raises. *)
Definition M (A : Type) : Type := World -> outcome A * World.

Definition ret {A : Type} (a : A) : M A := fun w => (Ret a, w).

Definition raise {A : Type} (e : exn) : M A := fun w => (Raise e, w).

Definition bind {A B : Type} (m : M A) (f : A -> M B) : M B :=
  fun w =>
    match m w with
    | (Ret a, w') => f a w'
    | (Raise e, w') => (Raise e, w')
    end.

Notation "'do' x ':=' c1 'in' c2" := (bind c1 (fun x => c2))
  (at level 10, x name, c1 at level 100, c2 at level 200).

Definition emit (e : event) (w : World) : World :=
  {| clock := clock w; fs := fs w; log := log w ++ [e] |}.

Definition set_fs (f : gmap string node) (w : World) : World :=
  {| clock := clock w; fs := f; log := log w |}.

Definition datetime_now : M Z := fun w => (Ret (clock w), w).

(** [datetime] covers the years 1 to 9999: a point in time is the number
    of microseconds since the start of the year 1, and the last day is
    day 3652059. *)
Definition datetime_end : Z := 3652059 * 86400000000.

(** [t - d] for a [datetime] and a [timedelta]: a result outside the
    years 1 to 9999 raises. *)
Definition datetime_sub (t d : Z) : outcome Z :=
  let r := t - d in
  if (0 <=? r) && (r <? datetime_end) then Ret r else Raise OverflowError.

(** The two parts of a path around its last slash: the directory that
    holds the entry, and the name of the entry.  A path without a slash
    names an entry of the current directory, written as the empty path. *)
Fixpoint split_path (p : string) : option string * string :=
  match p with
  | EmptyString => (None, EmptyString)
  | String c p' =>
      match split_path p' with
      | (Some d, name) => (Some (String c d), name)
      | (None, name) =>
          if Ascii.eqb c "/" then (Some EmptyString, name)
          else (None, String c name)
      end
  end.

Definition basename (p : string) : string := snd (split_path p).

Fixpoint has_nul (p : string) : bool :=
  match p with
  | EmptyString => false
  | String c p' => Ascii.eqb c zero || has_nul p'
  end.

(** The longest name of a directory entry. *)
Definition NAME_MAX : nat := 255.

Definition path_exists (p : string) : M bool :=
  fun w => (Ret (bool_decide (is_Some (fs w !! p))), emit (EvExists p) w).

Definition path_isdir (p : string) : M bool :=
  fun w =>
    (Ret (match fs w !! p with Some (Dir _) => true | _ => false end),
     emit (EvIsdir p) w).

(** [os.makedirs(p)] for a path that does not exist; the empty path names
    nothing. *)
Definition makedirs (p : string) : M unit :=
  fun w =>
    match p with
    | EmptyString => (Raise FileNotFoundError, emit (EvMakedirs p) w)
    | _ => (Ret tt, set_fs (<[p := Dir (clock w)]> (fs w)) (emit (EvMakedirs p) w))
    end.

Definition getmtime (p : string) : M Z :=
  fun w =>
    (match fs w !! p with
     | Some n => Ret (node_mtime n)
     | None => Raise FileNotFoundError
     end, emit (EvGetmtime p) w).

Definition read_file (p : string) : M string :=
  fun w =>
    (match fs w !! p with
     | Some (File _ content) => Ret content
     | Some (Dir _) => Raise IsADirectoryError
     | None => Raise FileNotFoundError
     end, emit (EvRead p) w).

(** The directory that is to hold a new entry [p] must be there: the
    current directory and the root always are. *)
Definition check_parent (p : string) (w : World) : outcome unit :=
  match fst (split_path p) with
  | None | Some EmptyString => Ret tt
  | Some d =>
      match fs w !! d with
      | Some (Dir _) => Ret tt
      | Some (File _ _) => Raise OSError_ENOTDIR
      | None => Raise FileNotFoundError
      end
  end.

(** [open(p, "w")] followed by a write: the directory that is to hold the
    file must exist, and the file system must accept the name. *)
Definition write_file (p content : string) : M unit :=
  fun w =>
    if has_nul p then (Raise ValueError, w)
    else
      match check_parent p w with
      | Raise e => (Raise e, emit (EvWrite p) w)
      | Ret _ =>
          if (NAME_MAX <? String.length (basename p))%nat
          then (Raise OSError_ENAMETOOLONG, emit (EvWrite p) w)
          else
            match fs w !! p with
            | Some (Dir _) => (Raise IsADirectoryError, emit (EvWrite p) w)
            | _ =>
                (Ret tt,
                 set_fs (<[p := File (clock w) content]> (fs w)) (emit (EvWrite p) w))
            end
      end.

(** What the cache layer needs from the rest of the program: the JSON
    codec, and [DownloadJSON], which throttles, performs the request and
    either returns the decoded body or ends the process. *)
Class Backend (J : Type) : Type := {
  json_dump : J -> string;
  json_load : string -> outcome J;
  DownloadJSON : string -> string -> M J
}.

(** ["{}/{}-{}-{}.json".format(cache_dir, cache_file, args.platform,
    args.language)] *)
Definition cache_path (cache_dir cache_file platform language : string) : string :=
  cache_dir +:+ "/" +:+ cache_file +:+ "-" +:+ platform +:+ "-" +:+ language +:+ ".json".

Section GetData.
Context {J : Type} `{Backend J}.
Context (cache_dir platform language : string).

Definition GetData (cache_file url desc : string) (cache_ttl : option Z) : M J :=
  do st :=
    match cache_ttl with
    | None => ret (false, cache_file)
    | Some ttl =>
        do ex := path_exists cache_dir in
        do _ := (if negb ex then makedirs cache_dir else ret tt) in
        do isd := path_isdir cache_dir in
        if negb isd then raise OSError_ENOTDIR
        else
          let cache_file := cache_path cache_dir cache_file platform language in
          do use_cache := path_exists cache_file in
          if use_cache then
            do now := datetime_now in
            do expire_time := (fun w => (datetime_sub now ttl, w)) in
            do mtime := getmtime cache_file in
            ret (expire_time <? mtime, cache_file)
          else ret (false, cache_file)
    end in
  let '(use_cache, cache_file) := st in
  if use_cache then
    do content := read_file cache_file in
    fun w => (json_load content, w)
  else
    do data := DownloadJSON url desc in
    match cache_ttl with
    | Some _ =>
        do _ := write_file cache_file (json_dump data) in
        ret data
    | None => ret data
    end.
End GetData.

End Cache.

(** ** Request throttling *)

Module Throttle.

(** [request_delay = timedelta(seconds=(60 / args.rate_limit))], in
    microseconds: the constructor rounds to the nearest microsecond, a tie
    to the even one; the quotient is taken exactly. *)
Definition request_delay (rate_limit : Z) : outcome Z :=
  if rate_limit =? 0 then Raise ZeroDivisionError
  else Ret (py_round (inject_Z 60000000 / inject_Z rate_limit)%Q).

Record State : Type := mk_State {
  clock : Z;
  last_request : option Z;
  slept : list Z
}.

(** [time.sleep(d)] suspends the process for [d] and for [lag] more, the
    amount by which the system oversleeps. *)
Definition time_sleep (d lag : Z) (st : State) : State :=
  {| clock := clock st + d + lag;
     last_request := last_request st;
     slept := slept st ++ [d] |}.

Definition set_last_request (t : Z) (st : State) : State :=
  {| clock := clock st; last_request := Some t; slept := slept st |}.

(** [seconds_left >= 0.0005] is [500 <= time_left] in microseconds. *)
Definition ThrottleRequests (request_delay lag : Z) (st : State) : State :=
  let now := clock st in
  match last_request st with
  | Some last =>
      let time_left := last + request_delay - now in
      if 500 <=? time_left then
        let st := time_sleep time_left lag st in
        let now := clock st in
        set_last_request now st
      else set_last_request now st
  | None => set_last_request now st
  end.

(** Time that passes between two calls. *)
Definition elapse (dt : Z) (st : State) : State :=
  {| clock := clock st + dt; last_request := last_request st; slept := slept st |}.

End Throttle.

(** ** The main program: collecting the items to look up *)

Module Main.

Import Resolver.

Definition str_in (m : string) (l : list string) : bool := existsb (String.eqb m) l.

(** [to_lookup.extend(m for m in matches if m not in to_lookup)]: the
    generator is consumed while the list grows, so its test sees the
    names appended earlier in the same call. *)
Definition extend_new (to_lookup matches : list string) : list string :=
  fold_left (fun acc m => if str_in m acc then acc else acc ++ [m]) matches to_lookup.

(** The loop over [args.items]; [quit(retval)] raises [SystemExit]. *)
Fixpoint lookup_loop (args_list : bool) (all_items : list Item) (items : list string)
    (to_lookup : list string) (retval : Z) : outcome (list string * Z) :=
  match items with
  | [] => Ret (to_lookup, retval)
  | item :: items' =>
      let matches := FindMatchingItems item all_items in
      let to_lookup := extend_new to_lookup matches in
      if (length matches =? 0)%nat then
        let retval := 1 in
        if negb args_list then Raise (SystemExit retval)
        else lookup_loop args_list all_items items' to_lookup retval
      else lookup_loop args_list all_items items' to_lookup retval
  end.

End Main.

(** ** The catalog and the orders of an item *)

Module Catalog.

Import Resolver Orders Cache.

(** The order of [str]: character by character, by code; a proper prefix
    comes first. *)
Fixpoint str_leb (a b : string) : bool :=
  match a, b with
  | EmptyString, _ => true
  | String _ _, EmptyString => false
  | String x a', String y b' =>
      if code x <? code y then true
      else if code y <? code x then false
      else str_leb a' b'
  end.

(** [list.sort] for a comparison of the elements; stable, as the sort on
    integer keys above. *)
Section SortBy.
Context {A : Type} (le : A -> A -> bool).

Fixpoint insert_by (x : A) (l : list A) : list A :=
  match l with
  | [] => [x]
  | y :: l' => if le x y then x :: l else y :: insert_by x l'
  end.

Definition sort_by (l : list A) : list A := foldr insert_by [] l.
End SortBy.

(** The two places of a decoded response that the program reads:
    [data['payload']['items']] and [data['payload']['orders']]; a response
    without them raises. *)
Class Payload (J : Type) : Type := {
  payload_items : J -> outcome (list Item);
  payload_orders : J -> outcome (list Order)
}.

Definition lift {A : Type} (x : outcome A) : M A := fun w => (x, w).

Section Catalog.
Context {J : Type} `{Backend J} `{Payload J}.
Context (cache_dir platform language : string).

Definition GetAllItems (ttl : option Z) : M (list Item) :=
  let cache_file := "all_items"%string in
  let url := "https://api.warframe.market/v1/items"%string in
  let desc := "all items"%string in
  do data := GetData cache_dir platform language cache_file url desc ttl in
  do items := lift (payload_items data) in
  ret (sort_by (fun a b => str_leb (item_name a) (item_name b)) items).

Definition GetItemOrders (ttl : option Z) (all_items : list Item) (name : string)
    : M (list Order) :=
  match List.find (fun i => String.eqb (item_name i) name) all_items with
  | None => raise NameError
  | Some item =>
      let url :=
        "https://api.warframe.market/v1/items/" +:+ url_name item +:+ "/orders" in
      let cache_file := url_name item +:+ "-orders" in
      let desc := "orders for `" +:+ name +:+ "'" in
      do data := GetData cache_dir platform language cache_file url desc ttl in
      lift (payload_orders data)
  end.
End Catalog.

End Catalog.

(** ** Clearing the cache *)

Module Clear.

(** What [entry.is_file()] tells about an entry of the cache directory. *)
Inductive kind : Type :=
| Regular
| Other.

(** The cache location: missing, something that is no directory, or a
    directory with its entries in the order [os.scandir] yields them. *)
Inductive location : Type :=
| Absent
| NotDirectory
| Directory (entries : list (string * kind)).

Record State : Type := mk_State {
  cache : location;
  stdout : list string
}.





End Clear.

(** ** Options and output of the main program *)

Module Display.

Import Orders.

(** The message level: [--debug] sets it, otherwise every [-v] beyond the
    number of [-q] switches on one more bit. *)
Definition verbose_level (debug : option Z) (verbose quiet : Z) : Z :=
  match debug with
  | Some d => d
  | None =>
      if verbose <=? quiet then 0
      else Z.shiftl 1 (verbose - quiet) - 1
  end.

(** [verbose & bit] as a condition. *)
Definition enabled (level bit : Z) : bool := negb (Z.land level bit =? 0).

(** The loop over [args.file]: the lines of every file are added to the
    items of the command line, those already there excepted. *)
Definition add_file_items (items : list string) (files : list (list string))
    : list string :=
  fold_left Main.extend_new files items.

(** The rows of the order table of one item: the first five orders unless
    [--all] is given. *)
Definition order_rows (args_all : bool) (orders : list Order) : list (list cell) :=
  let orders := if negb args_all then take 5 orders else orders in
  map (fun o => [CStr (ingame_name (user o)); CInt (GetPrice o); CInt (quantity o)])
    orders.

End Display.

(** * Specifications *)

(** ** What the TTL parser is expected to accept *)

Module TTLSpec.

(** Seconds in the unit written after the number; no letter means seconds. *)
Definition unit_seconds (u : string) : option Z :=
  if String.eqb u "d" then Some 86400
  else if String.eqb u "h" then Some 3600
  else if String.eqb u "m" then Some 60
  else if String.eqb u "s" then Some 1
  else if String.eqb u "" then Some 1
  else None.

(** The strings [<n>d], [<n>h], [<n>m], [<n>s] and [<n>]. *)
Definition ttl_form (s : string) : Prop :=
  exists ds u k,
    ds <> EmptyString /\ all_digits ds = true /\ unit_seconds u = Some k
    /\ s = ds +:+ u.

(** The digit strings that every interpreter converts. *)
Definition MAX_STR_DIGITS : nat := 4300.

(** Text made of ASCII characters only. *)
Fixpoint ascii_only (s : string) : bool :=
  match s with
  | EmptyString => true
  | String c s' => (code c <? 128) && ascii_only s'
  end.

(** A decision procedure for [ttl_form]. *)
Definition ttl_formb (s : string) : bool :=
  let (ds, u) := TTL.span_digits s in
  negb (String.eqb ds EmptyString)
  && match unit_seconds u with Some _ => true | None => false end.

Fixpoint ends_with_LF (s : string) : bool :=
  match s with
  | EmptyString => false
  | String c EmptyString => Ascii.eqb c LF
  | String _ s' => ends_with_LF s'
  end.

End TTLSpec.

(** ** Numbers with a finite binary expansion *)

Module FloatSpec.


End FloatSpec.

(** ** What the summary row is expected to hold *)

Module SummarySpec.

Import Orders.

Definition is_minimum (lo : Z) (l : list Z) : Prop :=
  In lo l /\ forall x, In x l -> lo <= x.

Definition is_maximum (hi : Z) (l : list Z) : Prop :=
  In hi l /\ forall x, In x l -> x <= hi.

Definition sumQ (l : list Q) : Q := fold_right Qplus 0%Q l.

Definition lenQ {A : Type} (l : list A) : Q := inject_Z (Z.of_nat (length l)).

(** The arithmetic mean: the sum divided by the number of values. *)
Definition mean (l : list Z) : Q := (sumQ (map inject_Z l) / lenQ l)%Q.

(** The sample variance; the sample standard deviation is its square
    root. *)
Definition sample_variance (l : list Z) : Q :=
  (sumQ (map (fun x => (inject_Z x - mean l) * (inject_Z x - mean l)) l)
   / (lenQ l - 1))%Q.



(** [z] is an integer nearest to [q]. *)
Definition nearest (q : Q) (z : Z) : Prop :=
  (Qabs (q - inject_Z z) <= 1 # 2)%Q.

(** [z] is an integer nearest to the square root of [q]:
    [z - 1/2 <= sqrt q <= z + 1/2], written with squares. *)
Definition nearest_sqrt (q : Q) (z : Z) : Prop :=
  0 <= z
  /\ (q <= (inject_Z z + (1 # 2)) * (inject_Z z + (1 # 2)))%Q
  /\ (z = 0 \/ ((inject_Z z - (1 # 2)) * (inject_Z z - (1 # 2)) <= q)%Q).

End SummarySpec.

(** ** What the order filter is expected to keep *)

Module FilterSpec.

Import Orders.

Definition side (args : Args) : string :=
  if args_buyers args then "buy" else "sell".

(** The seller is not offline, and platform, region and side are the
    selected ones. *)
Definition keeps (args : Args) (o : Order) : Prop :=
  status (user o) <> "offline"%string
  /\ platform o = args_platform args
  /\ region o = args_language args
  /\ order_type o = side args.

Definition keepsb (args : Args) (o : Order) : bool :=
  negb (String.eqb (status (user o)) "offline")
  && String.eqb (platform o) (args_platform args)
  && String.eqb (region o) (args_language args)
  && String.eqb (order_type o) (side args).

(** Descending exactly when buyers are listed, exclusive-or the reverse
    option. *)
Definition descending (args : Args) : bool :=
  xorb (args_buyers args) (args_reverse args).

Definition price_order (desc : bool) (a b : Order) : Prop :=
  if desc then platinum b <= platinum a else platinum a <= platinum b.

End FilterSpec.

(** ** What the name resolver is expected to match *)

Module ResolverSpec.

Import Re Resolver.


(** What the two steps of [_FindMatchingItems] decide for a pattern and a
    display name. *)
Definition glob (pat name : string) : bool := re_match (translate pat) name.

(** *** Shell patterns

    The reading of a pattern that [fnmatch] documents, stated on the text
    of the pattern: [*] stands for any run of characters, [?] for any one
    character, a set in brackets for any one of its members and a set that
    begins with an exclamation mark for any character that is no member;
    every other character stands for itself.  Letters match in either
    case. *)











(** Every abbreviation rule applied to the pattern, in the order of the
    table, each to the result of the one before. *)
Definition expand (pat : string) : string :=
  fold_left (fun n r => sub (fst r) (snd r) n) name_replacements pat.




End ResolverSpec.

(** ** What the list of items to look up is expected to be *)

Module MainSpec.

(** The first occurrence of every string, in order of appearance. *)
Fixpoint dedup (l : list string) : list string :=
  match l with
  | [] => []
  | x :: l' => x :: List.filter (fun y => negb (String.eqb y x)) (dedup l')
  end.

End MainSpec.

(** ** Cache file names without a hyphen in platform and locale *)

Module CacheSpec.

Fixpoint no_hyphen (s : string) : bool :=
  match s with
  | EmptyString => true
  | String c s' => negb (Ascii.eqb c "-") && no_hyphen s'
  end.








(** A backend for examples: a document is a text stored as it is, and
    a download takes one second and returns the text [fresh]. *)
Definition example_backend : Cache.Backend string :=
  {| Cache.json_dump := fun data => data;
     Cache.json_load := fun content => Ret content;
     Cache.DownloadJSON := fun _ _ w =>
       (Ret "fresh"%string,
        {| Cache.clock := Cache.clock w + 1000000;
           Cache.fs := Cache.fs w;
           Cache.log := Cache.log w |}) |}.

End CacheSpec.

(** ** The keywords of a duration *)

Module TTLUnits.

(** The keyword arguments that the parser passes on, with their length in
    seconds. *)
Definition unit_table : list (string * Z) :=
  [("days", 86400); ("hours", 3600); ("minutes", 60); ("seconds", 1)]%string.

(** A text followed by a line feed. *)
Definition with_LF (s : string) : string := s +:+ String LF EmptyString.

End TTLUnits.

(** ** Sums of prices and rows of the order table *)

Module OrdersMore.

Import Orders.

(** The row of the order table for one order. *)
Definition row_of (o : Order) : list cell :=
  [CStr (ingame_name (user o)); CInt (GetPrice o); CInt (quantity o)].

(** The orders whose key is [k]. *)
Definition with_key {A : Type} (key : A -> Z) (k : Z) (l : list A) : list A :=
  List.filter (fun x => key x =? k) l.

End OrdersMore.

(** ** Prefixes and the case of names *)

Module ResolverMore.

Import Re.


(** A text with its capital letters made small. *)
Fixpoint lower_str (s : string) : string :=
  match s with
  | EmptyString => EmptyString
  | String c s' => String (lower c) (lower_str s')
  end.

End ResolverMore.

(** ** Patterns without a match, entries that stay, later worlds *)

Module MoreSpec.

Import Resolver.




(** The order of display names. *)
Definition name_le (a b : Item) : Prop :=
  Catalog.str_leb (item_name a) (item_name b) = true.

(** The recorded time of the last request is not in the future. *)
Definition well_timed (st : Throttle.State) : Prop :=
  match Throttle.last_request st with
  | Some t => t <= Throttle.clock st
  | None => True
  end.

(** A run of requests: every request is throttled, with its own oversleep
    [lag], and then takes the time [dt]; the result lists the times
    recorded for the requests. *)
Fixpoint throttle_run (delay : Z) (steps : list (Z * Z)) (st : Throttle.State)
    : list Z :=
  match steps with
  | [] => []
  | (lag, dt) :: steps' =>
      let st' := Throttle.ThrottleRequests delay lag st in
      Throttle.clock st'
        :: throttle_run delay steps' (Throttle.elapse dt st')
  end.

(** A reading of the example documents: no items and no orders. *)
Definition example_payload : Catalog.Payload string :=
  {| Catalog.payload_items := fun _ => Ret [];
     Catalog.payload_orders := fun _ => Ret [] |}.

End MoreSpec.

(** * Proofs *)

(** ** Rounding *)

Section Rounding.

Import SummarySpec Orders.

Lemma py_round_nearest (q : Q) : nearest q (py_round q).
Proof.
  destruct q as [n d]. unfold nearest, py_round. simpl Qnum. simpl Qden.
  pose proof (Z.div_mod n (Zpos d) ltac:(lia)) as Hdm.
  pose proof (Z.mod_pos_bound n (Zpos d) ltac:(lia)) as Hr.
  set (f := n / Zpos d) in *. set (r := n mod Zpos d) in *.
  assert (Hgoal : forall z, 2 * Z.abs (n - z * Zpos d) <= Zpos d ->
            (Qabs ((n # d) - inject_Z z) <= 1 # 2)%Q).
  { intros z Hz. unfold Qle, Qabs, Qminus, Qplus, Qopp, inject_Z. simpl.
    rewrite Pos.mul_1_r. replace (n * 1 + - z * Zpos d) with (n - z * Zpos d) by lia.
    lia. }
  destruct (Z.ltb_spec (2 * r) (Zpos d)); [apply Hgoal; lia|].
  destruct (Z.ltb_spec (Zpos d) (2 * r)); [apply Hgoal; lia|].
  destruct (Z.even f); apply Hgoal; lia.
Qed.

End Rounding.

(** ** Floating-point numbers *)

Section FloatProofs.

Import Float FloatSpec.
















End FloatProofs.

(** ** The TTL parser *)

Section TTLProofs.

Import TTL TTLSpec.

Lemma span_digits_split (s ds rest : string) :
  span_digits s = (ds, rest) -> s = ds +:+ rest /\ all_digits ds = true.
Proof.
  revert ds rest. induction s as [|c s IH]; intros ds rest; simpl.
  - intros [= <- <-]. auto.
  - destruct (is_digit c) eqn:Hc.
    + destruct (span_digits s) as [ds' rest'] eqn:Hs.
      intros [= <- <-]. destruct (IH _ _ eq_refl) as [-> Hd].
      simpl. rewrite Hc, Hd. auto.
    + intros [= <- <-]. auto.
Qed.

Lemma span_digits_app (ds rest : string) :
  all_digits ds = true ->
  match rest with String c _ => is_digit c = false | EmptyString => True end ->
  span_digits (ds +:+ rest) = (ds, rest).
Proof.
  intros Hd Hr. induction ds as [|c ds IH]; simpl in *.
  - destruct rest as [|c r]; [reflexivity|]. simpl. now rewrite Hr.
  - apply andb_true_iff in Hd as [Hc Hd]. rewrite Hc, (IH Hd). reflexivity.
Qed.

Lemma at_dollar_cases (t : string) :
  at_dollar t = true -> t = EmptyString \/ t = String LF EmptyString.
Proof.
  destruct t as [|c [|c' t]]; simpl; try discriminate; auto.
  intros Hc. apply Ascii.eqb_eq in Hc. subst. auto.
Qed.

Lemma ends_with_LF_app (a b : string) :
  b <> EmptyString -> ends_with_LF (a +:+ b) = ends_with_LF b.
Proof.
  intros Hb. induction a as [|c a IH]; [reflexivity|].
  simpl. rewrite IH. destruct (a +:+ b) eqn:E; [|reflexivity].
  destruct a; simpl in E; [contradiction | discriminate].
Qed.

(** A successful alternative splits the subject into digits, the unit
    letter (or nothing, for the last alternative) and what [$] accepts. *)
Lemma match_alt_Some (u : ascii) (optional : bool) (s ds : string) :
  match_alt u optional s = Some ds ->
  ds <> EmptyString /\ all_digits ds = true /\
  exists t, at_dollar t = true /\
    (s = ds +:+ String u t \/ (optional = true /\ s = ds +:+ t)).
Proof.
  unfold match_alt. destruct (span_digits s) as [d rest] eqn:Hs.
  apply span_digits_split in Hs as [-> Hd].
  destruct d as [|c d]; [discriminate|].
  destruct rest as [|c' rest'].
  - destruct optional; [|discriminate]. intros [= <-].
    repeat split; try easy. exists EmptyString. auto.
  - destruct (Ascii.eqb c' u && at_dollar rest') eqn:H1.
    + apply andb_true_iff in H1 as [Hu Ht]. apply Ascii.eqb_eq in Hu. subst c'.
      intros [= <-]. repeat split; try easy. exists rest'. auto.
    + destruct (optional && at_dollar (String c' rest')) eqn:H2; [|discriminate].
      apply andb_true_iff in H2 as [-> Ht].
      intros [= <-]. repeat split; try easy. exists (String c' rest'). auto.
Qed.

Lemma matched_is_form (u : ascii) (optional : bool) (s ds : string) (k : Z) :
  unit_seconds (String u EmptyString) = Some k ->
  match_alt u optional s = Some ds ->
  ttl_form s \/ ends_with_LF s = true.
Proof.
  intros Hu Hm. apply match_alt_Some in Hm as (Hne & Hd & t & Ht & Hs).
  apply at_dollar_cases in Ht as [-> | ->].
  - left. destruct Hs as [-> | [_ ->]].
    + exists ds, (String u EmptyString), k. auto.
    + exists ds, EmptyString, 1. auto.
  - right. destruct Hs as [-> | [_ ->]].
    + now rewrite ends_with_LF_app.
    + now rewrite ends_with_LF_app.
Qed.

Lemma groupdict_Some (s : string) (parts : list (string * option string)) :
  groupdict s = Some parts -> ttl_form s \/ ends_with_LF s = true.
Proof.
  unfold groupdict.
  destruct (match_alt "d" false s) eqn:Ed; [intros _; eapply matched_is_form; eauto; reflexivity|].
  destruct (match_alt "h" false s) eqn:Eh; [intros _; eapply matched_is_form; eauto; reflexivity|].
  destruct (match_alt "m" false s) eqn:Em; [intros _; eapply matched_is_form; eauto; reflexivity|].
  destruct (match_alt "s" true s) eqn:Es; [intros _; eapply matched_is_form; eauto; reflexivity|].
  discriminate.
Qed.

Lemma of_seconds_days (n : Z) :
  of_seconds (n * 86400) = {| days := n; seconds := 0; microseconds := 0 |}.
Proof.
  unfold of_seconds, of_microseconds. f_equal.
  - replace (n * 86400 * 1000000) with (n * 86400000000) by lia.
    now rewrite Z.div_mul.
  - replace (n * 86400 * 1000000) with (n * 86400000000) by lia.
    now rewrite Z.mod_mul.
  - replace (n * 86400 * 1000000) with (n * 86400 * 1000000) by lia.
    now rewrite Z.mod_mul.
Qed.

Lemma days_of_seconds (t : Z) : days (of_seconds t) = t / 86400.
Proof.
  unfold of_seconds, of_microseconds. simpl.
  change 86400000000 with (86400 * 1000000).
  now rewrite Z.div_mul_cancel_r.
Qed.

Lemma int_acc_nonneg (s : string) (acc : Z) :
  all_digits s = true -> 0 <= acc -> 0 <= int_acc acc s.
Proof.
  revert acc. induction s as [|c s IH]; intros acc Hd Ha; simpl in *; [assumption|].
  apply andb_true_iff in Hd as [Hc Hd]. apply IH; [assumption|].
  unfold is_digit in Hc. apply andb_true_iff in Hc as [H1 H2]. lia.
Qed.

Lemma timedelta_new_one (key : string) (n k : Z) :
  In (key, k) [("days", 86400); ("hours", 3600); ("minutes", 60); ("seconds", 1)]%string ->
  n * k / 86400 <= MAX_DELTA_DAYS -> 0 <= n ->
  timedelta_new [(key, n)] = Ret (of_seconds (n * k)).
Proof.
  intros Hk Hmax Hn. unfold timedelta_new.
  assert (kwarg [(key, n)] "days" * 86400 + kwarg [(key, n)] "hours" * 3600
          + kwarg [(key, n)] "minutes" * 60 + kwarg [(key, n)] "seconds" = n * k) as ->.
  { simpl in Hk. destruct Hk as [[= <- <-]|[[= <- <-]|[[= <- <-]|[[= <- <-]|[]]]]];
      unfold kwarg; simpl; lia. }
  rewrite days_of_seconds.
  assert (0 <= n * k / 86400).
  { apply Z.div_pos; [|lia].
    simpl in Hk. destruct Hk as [[= <- <-]|[[= <- <-]|[[= <- <-]|[[= <- <-]|[]]]]]; lia. }
  destruct (Z.leb_spec (Z.abs (n * k / 86400)) MAX_DELTA_DAYS); [reflexivity|lia].
Qed.

Lemma match_alt_letter (u u' : ascii) (optional : bool) (ds : string) :
  ds <> EmptyString -> all_digits ds = true -> is_digit u' = false ->
  Ascii.eqb u' LF = false ->
  match_alt u optional (ds +:+ String u' EmptyString)
  = if Ascii.eqb u' u then Some ds else None.
Proof.
  intros Hne Hd Hu Hlf. unfold match_alt.
  rewrite span_digits_app by assumption.
  destruct ds as [|c ds]; [contradiction|].
  simpl. rewrite Hlf. destruct (Ascii.eqb u' u), optional; reflexivity.
Qed.

Lemma match_alt_bare (u : ascii) (ds : string) :
  ds <> EmptyString -> all_digits ds = true ->
  match_alt u true (ds +:+ EmptyString) = Some ds
  /\ match_alt u false (ds +:+ EmptyString) = None.
Proof.
  intros Hne Hd. unfold match_alt.
  rewrite span_digits_app by (simpl; auto).
  destruct ds as [|c ds]; [contradiction|]. auto.
Qed.

Lemma StrToTimeDelta_accepts (ds u : string) (k : Z) :
  ds <> EmptyString -> all_digits ds = true -> unit_seconds u = Some k ->
  int ds * k / 86400 <= MAX_DELTA_DAYS ->
  StrToTimeDelta (ds +:+ u) = Ret (Some (of_seconds (int ds * k))).
Proof.
  intros Hne Hd Hu Hmax.
  assert (Hn : 0 <= int ds) by (apply int_acc_nonneg; [assumption|lia]).
  assert (Hnz : ds +:+ u <> EmptyString) by (destruct ds; [contradiction|discriminate]).
  unfold StrToTimeDelta. destruct (ds +:+ u) eqn:Hs; [contradiction|]. rewrite <- Hs.
  clear Hs Hnz. unfold unit_seconds in Hu.
  assert (Hp : forall key, (exists c v, ds = String c v) ->
            time_params [(key, Some ds)] = [(key, int ds)]).
  { intros key (c & v & ->). reflexivity. }
  assert (Hds : exists c v, ds = String c v) by (destruct ds; [contradiction|eauto]).
  destruct Hds as (c & v & Hcv).
  destruct (String.eqb_spec u "d") as [->|_]; [injection Hu as <-|].
  { unfold groupdict. rewrite match_alt_letter by (assumption || reflexivity). simpl.
    rewrite Hcv. simpl time_params. rewrite <- Hcv.
    rewrite (timedelta_new_one "days" _ 86400); simpl; auto. }
  destruct (String.eqb_spec u "h") as [->|_]; [injection Hu as <-|].
  { unfold groupdict. rewrite !match_alt_letter by (assumption || reflexivity). simpl.
    rewrite Hcv. simpl time_params. rewrite <- Hcv.
    rewrite (timedelta_new_one "hours" _ 3600); simpl; auto. }
  destruct (String.eqb_spec u "m") as [->|_]; [injection Hu as <-|].
  { unfold groupdict. rewrite !match_alt_letter by (assumption || reflexivity). simpl.
    rewrite Hcv. simpl time_params. rewrite <- Hcv.
    rewrite (timedelta_new_one "minutes" _ 60); simpl; auto. }
  destruct (String.eqb_spec u "s") as [->|_]; [injection Hu as <-|].
  { unfold groupdict. rewrite !match_alt_letter by (assumption || reflexivity). simpl.
    rewrite Hcv. simpl time_params. rewrite <- Hcv.
    rewrite (timedelta_new_one "seconds" _ 1); simpl; auto 6. }
  destruct (String.eqb_spec u "") as [->|_]; [injection Hu as <-|discriminate].
  unfold groupdict.
  destruct (match_alt_bare "d" ds Hne Hd) as [_ ->].
  destruct (match_alt_bare "h" ds Hne Hd) as [_ ->].
  destruct (match_alt_bare "m" ds Hne Hd) as [_ ->].
  destruct (match_alt_bare "s" ds Hne Hd) as [-> _].
  rewrite Hcv. simpl time_params. rewrite <- Hcv.
  rewrite (timedelta_new_one "seconds" _ 1); simpl; auto 6.
Qed.

Lemma StrToTimeDelta_rejects (s : string) :
  s <> EmptyString -> ~ ttl_form s -> ends_with_LF s = false ->
  StrToTimeDelta s = Ret None.
Proof.
  intros Hne Hform Hlf. unfold StrToTimeDelta.
  destruct s as [|c s]; [contradiction|].
  destruct (groupdict (String c s)) as [parts|] eqn:Hg; [|reflexivity].
  apply groupdict_Some in Hg as [Hf | Hl]; [contradiction | congruence].
Qed.

Lemma StrToTimeDelta_overflows (ds u : string) (k : Z) :
  ds <> EmptyString -> all_digits ds = true -> unit_seconds u = Some k ->
  MAX_DELTA_DAYS < int ds * k / 86400 ->
  StrToTimeDelta (ds +:+ u) = Raise OverflowError.
Proof.
  intros Hne Hd Hu Hmax.
  assert (Hnz : ds +:+ u <> EmptyString) by (destruct ds; [contradiction|discriminate]).
  assert (Hds : exists c v, ds = String c v) by (destruct ds; [contradiction|eauto]).
  destruct Hds as (c & v & Hcv).
  assert (Hover : forall key, In (key, k)
            [("days", 86400); ("hours", 3600); ("minutes", 60); ("seconds", 1)]%string ->
            timedelta_new [(key, int ds)] = Raise OverflowError).
  { intros key Hk. unfold timedelta_new.
    assert (kwarg [(key, int ds)] "days" * 86400 + kwarg [(key, int ds)] "hours" * 3600
            + kwarg [(key, int ds)] "minutes" * 60 + kwarg [(key, int ds)] "seconds"
            = int ds * k) as ->.
    { simpl in Hk. destruct Hk as [[= <- <-]|[[= <- <-]|[[= <- <-]|[[= <- <-]|[]]]]];
        unfold kwarg; simpl; lia. }
    rewrite days_of_seconds.
    destruct (Z.leb_spec (Z.abs (int ds * k / 86400)) MAX_DELTA_DAYS); [lia|reflexivity]. }
  unfold StrToTimeDelta. destruct (ds +:+ u) eqn:Hs; [contradiction|]. rewrite <- Hs.
  clear Hs Hnz. unfold unit_seconds in Hu.
  destruct (String.eqb_spec u "d") as [->|_]; [injection Hu as <-|].
  { unfold groupdict. rewrite match_alt_letter by (assumption || reflexivity). simpl.
    rewrite Hcv. simpl time_params. rewrite <- Hcv. rewrite Hover; simpl; auto. }
  destruct (String.eqb_spec u "h") as [->|_]; [injection Hu as <-|].
  { unfold groupdict. rewrite !match_alt_letter by (assumption || reflexivity). simpl.
    rewrite Hcv. simpl time_params. rewrite <- Hcv. rewrite Hover; simpl; auto. }
  destruct (String.eqb_spec u "m") as [->|_]; [injection Hu as <-|].
  { unfold groupdict. rewrite !match_alt_letter by (assumption || reflexivity). simpl.
    rewrite Hcv. simpl time_params. rewrite <- Hcv. rewrite Hover; simpl; auto. }
  destruct (String.eqb_spec u "s") as [->|_]; [injection Hu as <-|].
  { unfold groupdict. rewrite !match_alt_letter by (assumption || reflexivity). simpl.
    rewrite Hcv. simpl time_params. rewrite <- Hcv. rewrite Hover; simpl; auto 6. }
  destruct (String.eqb_spec u "") as [->|_]; [injection Hu as <-|discriminate].
  unfold groupdict.
  destruct (match_alt_bare "d" ds Hne Hd) as [_ ->].
  destruct (match_alt_bare "h" ds Hne Hd) as [_ ->].
  destruct (match_alt_bare "m" ds Hne Hd) as [_ ->].
  destruct (match_alt_bare "s" ds Hne Hd) as [-> _].
  rewrite Hcv. simpl time_params. rewrite <- Hcv. rewrite Hover; simpl; auto 6.
Qed.

Lemma unit_not_digit (u : string) (k : Z) :
  unit_seconds u = Some k ->
  match u with String c _ => is_digit c = false | EmptyString => True end.
Proof.
  unfold unit_seconds.
  destruct (String.eqb_spec u "d") as [->|_]; [reflexivity|].
  destruct (String.eqb_spec u "h") as [->|_]; [reflexivity|].
  destruct (String.eqb_spec u "m") as [->|_]; [reflexivity|].
  destruct (String.eqb_spec u "s") as [->|_]; [reflexivity|].
  destruct (String.eqb_spec u "") as [->|_]; [auto|discriminate].
Qed.

Lemma ttl_formb_complete (s : string) : ttl_form s -> ttl_formb s = true.
Proof.
  intros (ds & u & k & Hne & Hd & Hu & ->). unfold ttl_formb.
  rewrite span_digits_app; [| assumption | eapply unit_not_digit; eassumption].
  rewrite Hu. destruct ds; [contradiction|reflexivity].
Qed.

Lemma ttl_formb_false (s : string) : ttl_formb s = false -> ~ ttl_form s.
Proof. intros Hb Hf. apply ttl_formb_complete in Hf. congruence. Qed.

(** C2, as amended: an ASCII string made of a non-empty run of at most
    4300 decimal digits followed by [d], [h], [m], [s] or nothing parses to
    that many days, hours, minutes or seconds when the duration fits a
    [timedelta] (at most 999999999 days), and raises [OverflowError] when
    it does not; [<n>d] has [n] in its days field; every other non-empty
    ASCII string that does not end in a line feed parses to [None]. *)
Theorem StrToTimeDelta_units :
  (forall ds u k,
      ds <> EmptyString -> all_digits ds = true ->
      (String.length ds <= MAX_STR_DIGITS)%nat ->
      unit_seconds u = Some k ->
      (int ds * k / 86400 <= MAX_DELTA_DAYS ->
       StrToTimeDelta (ds +:+ u) = Ret (Some (of_seconds (int ds * k))))
      /\ (MAX_DELTA_DAYS < int ds * k / 86400 ->
          StrToTimeDelta (ds +:+ u) = Raise OverflowError))
  /\ (forall n, of_seconds (n * 86400) = {| days := n; seconds := 0; microseconds := 0 |})
  /\ (forall s,
      s <> EmptyString -> ascii_only s = true -> ~ ttl_form s ->
      ends_with_LF s = false ->
      StrToTimeDelta s = Ret None).
Proof.
  split; [|split].
  - intros ds u k Hne Hd _ Hu. split; intros Hr.
    + now apply StrToTimeDelta_accepts.
    + now apply StrToTimeDelta_overflows with k.
  - apply of_seconds_days.
  - intros s Hne _. now apply StrToTimeDelta_rejects.
Qed.

Lemma StrToTimeDelta_units_witness :
  StrToTimeDelta "10m" = Ret (Some {| days := 0; seconds := 600; microseconds := 0 |})
  /\ StrToTimeDelta "99999999999999999h" = Raise OverflowError
  /\ StrToTimeDelta "5x" = Ret None.
Proof.
  destruct StrToTimeDelta_units as (Hforms & _ & Hother).
  split; [|split].
  - destruct (Hforms "10" "m" 60)%string as [Hok _];
      [discriminate | reflexivity | vm_compute; lia | reflexivity |].
    apply Hok. vm_compute. discriminate.
  - destruct (Hforms "99999999999999999" "h" 3600)%string as [_ Hov];
      [discriminate | reflexivity | vm_compute; lia | reflexivity |].
    apply Hov. vm_compute. reflexivity.
  - apply (Hother "5x"%string); [discriminate | reflexivity | | reflexivity].
    apply ttl_formb_false. reflexivity.
Defined.

(** C2, as stated, fails: [1000000000d] has the form [<n>d], and the
    parser raises instead of returning a duration. *)
Lemma StrToTimeDelta_units_counterexample :
  ttl_form "1000000000d"
  /\ (String.length "1000000000d" <= MAX_STR_DIGITS)%nat
  /\ StrToTimeDelta "1000000000d" = Raise OverflowError
  /\ ~ (exists td, StrToTimeDelta "1000000000d" = Ret (Some td)).
Proof.
  split; [|split; [|split]].
  - exists "1000000000"%string, "d"%string, 86400. repeat split. discriminate.
  - vm_compute. lia.
  - vm_compute. reflexivity.
  - intros [td Htd]. vm_compute in Htd. discriminate.
Qed.

(** C3, as amended: the parser gives the same [None] for the empty string
    and for a malformed ASCII string (one that is no [<n>d], [<n>h],
    [<n>m], [<n>s] or [<n>] and does not end in a line feed); the two
    cannot be told apart from the result. *)
Theorem StrToTimeDelta_empty_as_malformed :
  StrToTimeDelta EmptyString = Ret None
  /\ forall s,
      s <> EmptyString -> ascii_only s = true -> ~ ttl_form s ->
      ends_with_LF s = false ->
      StrToTimeDelta s = StrToTimeDelta EmptyString.
Proof.
  split; [reflexivity|]. intros s Hne _ Hf Hlf.
  now rewrite StrToTimeDelta_rejects.
Qed.

Lemma StrToTimeDelta_empty_as_malformed_witness :
  StrToTimeDelta "1d2h" = StrToTimeDelta EmptyString.
Proof.
  apply (proj2 StrToTimeDelta_empty_as_malformed "1d2h"%string);
    [discriminate | reflexivity | | reflexivity].
  apply ttl_formb_false. reflexivity.
Defined.

(** C3, as stated, fails: the empty string and the malformed [abc] parse to
    the same value. *)
Lemma StrToTimeDelta_distinct_counterexample :
  ~ ttl_form "abc" /\ ascii_only "abc" = true
  /\ StrToTimeDelta EmptyString = StrToTimeDelta "abc".
Proof.
  split; [apply ttl_formb_false; reflexivity | split; reflexivity].
Qed.

End TTLProofs.

(** ** The summary row *)

Section SummaryProofs.

Import SummarySpec Orders.

Lemma fold_min_spec (l : list Z) (x : Z) :
  is_minimum (fold_left Z.min l x) (x :: l).
Proof.
  revert x. induction l as [|y l IH]; intros x; simpl.
  - split; [now left|]. intros z [<-|[]]. lia.
  - destruct (IH (Z.min x y)) as [Hin Hle]. split.
    + destruct Hin as [Hin|Hin]; [|now right; right].
      rewrite <- Hin. destruct (Z.min_spec x y) as [[_ ->]|[_ ->]]; [now left|right; now left].
    + intros z [<-|[<-|Hz]].
      * specialize (Hle (Z.min x y) (or_introl eq_refl)). lia.
      * specialize (Hle (Z.min x y) (or_introl eq_refl)). lia.
      * apply Hle. now right.
Qed.

Lemma fold_max_spec (l : list Z) (x : Z) :
  is_maximum (fold_left Z.max l x) (x :: l).
Proof.
  revert x. induction l as [|y l IH]; intros x; simpl.
  - split; [now left|]. intros z [<-|[]]. lia.
  - destruct (IH (Z.max x y)) as [Hin Hle]. split.
    + destruct Hin as [Hin|Hin]; [|now right; right].
      rewrite <- Hin. destruct (Z.max_spec x y) as [[_ ->]|[_ ->]]; [right; now left|now left].
    + intros z [<-|[<-|Hz]].
      * specialize (Hle (Z.max x y) (or_introl eq_refl)). lia.
      * specialize (Hle (Z.max x y) (or_introl eq_refl)). lia.
      * apply Hle. now right.
Qed.
























Lemma NoMinMax_upto_five (data : list Z) :
  (length data <= 5)%nat -> NoMinMax data = Ret data.
Proof.
  intros Hlen. unfold NoMinMax.
  destruct (Nat.ltb_spec 5 (length data)); [lia|reflexivity].
Qed.




(** C1, where it fails: beyond the precision of a float the average and the
    deviation in the row are not the nearest integers.  For three prices
    near [2 ^ 54] the average in the row is [2 ^ 54], below every price;
    for the prices 0 and 93222358 the deviation in the row is 65918162,
    while the exact one lies below 65918161.5. *)
Theorem AddItemSummary_float_counterexample :
  let o := fun p => mk_Order "sell" p 1 "pc" "en" (mk_User "ingame" "Tenno") in
  AddItemSummary [] "Ember Prime Set"
    (map o [18014398509481985; 18014398509481985; 18014398509481986])
  = Ret [[CStr "Ember Prime Set"; CInt 18014398509481985; CInt 18014398509481984;
          CInt 18014398509481986; CInt 1; CInt 3]]
  /\ ~ nearest (mean [18014398509481985; 18014398509481985; 18014398509481986])
         18014398509481984
  /\ AddItemSummary [] "Ember Prime Set" (map o [0; 93222358])
     = Ret [[CStr "Ember Prime Set"; CInt 0; CInt 46611179; CInt 93222358;
             CInt 65918162; CInt 2]]
  /\ ~ nearest_sqrt (sample_variance [0; 93222358]) 65918162.
Proof.
  intros o. split; [vm_compute; reflexivity|]. split; [|split].
  - unfold nearest. intros H. apply Qabs_Qle_condition in H as [_ H].
    vm_compute in H. apply H. reflexivity.
  - vm_compute. reflexivity.
  - unfold nearest_sqrt. intros (_ & _ & [H|H]); [discriminate|].
    vm_compute in H. apply H. reflexivity.
Qed.

(** C4: with exactly five values [NoMinMax] returns its argument as it
    is; the comment above it promises the least and the greatest value
    removed from five values on. *)
Theorem NoMinMax_five_values :
  NoMinMax [1; 2; 3; 4; 5] = Ret [1; 2; 3; 4; 5]
  /\ NoMinMax [1; 2; 3; 4; 5; 6] = Ret [2; 3; 4; 5].
Proof. split; reflexivity. Qed.

End SummaryProofs.

(** ** Filtering and sorting the orders *)

Section FilterProofs.

Import FilterSpec Orders.

Lemma keepsb_keeps (args : Args) (o : Order) : keepsb args o = true <-> keeps args o.
Proof.
  unfold keepsb, keeps. rewrite !andb_true_iff, negb_true_iff, !String.eqb_eq.
  rewrite String.eqb_neq. tauto.
Qed.

Lemma filter_is_keepsb (args : Args) (o : Order) :
  (if args_buyers args then FilterBuyers args o else FilterSellers args o)
  = keepsb args o.
Proof.
  unfold keepsb, side, FilterBuyers, FilterSellers, FilterUsers, str_ne.
  destruct (args_buyers args);
    destruct (String.eqb (order_type o) _), (String.eqb (status (user o)) _),
      (String.eqb (platform o) _), (String.eqb (region o) _); reflexivity.
Qed.

Lemma sublist_List_filter {A : Type} (f : A -> bool) (l : list A) :
  sublist (List.filter f l) l.
Proof.
  induction l as [|x l IH]; simpl; [constructor|].
  destruct (f x); now constructor.
Qed.

Lemma insert_sorted_perm {A : Type} (key : A -> Z) (x : A) (l : list A) :
  Permutation (insert_sorted key x l) (x :: l).
Proof.
  induction l as [|y l IH]; simpl; [reflexivity|].
  destruct (key x <=? key y); [reflexivity|].
  rewrite IH. apply perm_swap.
Qed.

Lemma stable_sort_perm {A : Type} (key : A -> Z) (l : list A) :
  Permutation (stable_sort key l) l.
Proof.
  induction l as [|x l IH]; simpl; [reflexivity|].
  unfold stable_sort in *. simpl. rewrite insert_sorted_perm. now constructor.
Qed.

Lemma insert_sorted_sorted {A : Type} (key : A -> Z) (x : A) (l : list A) :
  StronglySorted (fun a b => key a <= key b) l ->
  StronglySorted (fun a b => key a <= key b) (insert_sorted key x l).
Proof.
  induction 1 as [|y l Hs IH Hall]; simpl.
  - constructor; constructor.
  - destruct (Z.leb_spec (key x) (key y)).
    + constructor; [now constructor|]. constructor; [assumption|].
      eapply Forall_impl; [exact Hall|]. simpl. intros. lia.
    + constructor; [assumption|].
      eapply Permutation_Forall; [symmetry; apply insert_sorted_perm|].
      constructor; [lia|assumption].
Qed.

Lemma stable_sort_sorted {A : Type} (key : A -> Z) (l : list A) :
  StronglySorted (fun a b => key a <= key b) (stable_sort key l).
Proof.
  induction l as [|x l IH]; [constructor|].
  unfold stable_sort in *. simpl. now apply insert_sorted_sorted.
Qed.

Lemma StronglySorted_rev {A : Type} (R : relation A) (l : list A) :
  StronglySorted R l -> StronglySorted (flip R) (rev l).
Proof.
  induction 1 as [|x l Hs IH Hall]; simpl; [constructor|].
  apply StronglySorted_app_2; [|assumption|repeat constructor].
  intros a b Ha Hb. apply list_elem_of_In in Ha. apply list_elem_of_In in Hb.
  destruct Hb as [<-|[]]. apply in_rev in Ha.
  rewrite List.Forall_forall in Hall. now apply Hall.
Qed.

Lemma list_sort_perm {A : Type} (key : A -> Z) (reverse : bool) (l : list A) :
  Permutation (list_sort key reverse l) l.
Proof.
  unfold list_sort. destruct reverse.
  - rewrite <- Permutation_rev, stable_sort_perm. symmetry. apply Permutation_rev.
  - apply stable_sort_perm.
Qed.

Lemma list_sort_sorted (reverse : bool) (l : list Order) :
  StronglySorted (price_order reverse) (list_sort GetPrice reverse l).
Proof.
  unfold list_sort, price_order. destruct reverse.
  - apply (StronglySorted_rev (fun a b => GetPrice a <= GetPrice b)).
    apply stable_sort_sorted.
  - apply (stable_sort_sorted GetPrice).
Qed.

(** C7: the program binds [orders] to a new list that holds exactly the
    orders kept by the filter, in ascending or descending order of price;
    an order is kept when the seller is not offline and platform, region
    and side are the selected ones; the order is descending exactly when
    [buyers] exclusive-or [reverse] holds; every list that existed before,
    the original order list among them, is unchanged. *)
Theorem filter_and_sort_spec (args : Args) (h : heap) (orders : nat) :
  let src := deref h orders in
  let kept := List.filter (keepsb args) src in
  let '(orders', h') := filter_and_sort args orders h in
  (forall o, In o kept <-> In o src /\ keeps args o)
  /\ sublist kept src
  /\ Permutation (deref h' orders') kept
  /\ StronglySorted (price_order (descending args)) (deref h' orders')
  /\ (forall a, (a < length h)%nat -> h' !! a = h !! a).
Proof.
  intros src kept. unfold filter_and_sort, list_new.
  assert (Hflt : List.filter
            (if args_buyers args then FilterBuyers args else FilterSellers args) src
          = kept).
  { unfold kept. apply filter_ext. intros o. rewrite <- filter_is_keepsb.
    now destruct (args_buyers args). }
  fold src. rewrite Hflt.
  assert (Hdir : negb (Bool.eqb (args_buyers args) (args_reverse args)) = descending args).
  { unfold descending. now destruct (args_buyers args), (args_reverse args). }
  rewrite Hdir.
  assert (Hnew : deref (sort_in_place GetPrice (descending args) (length h) (h ++ [kept]))
                   (length h) = list_sort GetPrice (descending args) kept).
  { unfold deref, sort_in_place. rewrite list_lookup_alter_eq.
    now rewrite list_lookup_middle. }
  rewrite Hnew. split; [|split; [|split; [|split]]].
  - intros o. unfold kept. rewrite filter_In, keepsb_keeps. tauto.
  - apply sublist_List_filter.
  - apply list_sort_perm.
  - apply list_sort_sorted.
  - intros a Ha. unfold sort_in_place.
    rewrite list_lookup_alter_ne by lia. now apply lookup_app_l.
Qed.

Lemma filter_and_sort_spec_witness :
  let o := fun side p st =>
    mk_Order side p 1 "pc" "en" (mk_User st "Tenno") in
  let h := [[o "sell" 30 "ingame"; o "buy" 50 "online"; o "sell" 10 "online";
             o "sell" 5 "offline"; o "sell" 20 "ingame"]]%string in
  let args := mk_Args "pc" "en" false false in
  snd (filter_and_sort args 0 h) !! 0%nat = h !! 0%nat
  /\ map platinum (deref (snd (filter_and_sort args 0 h)) (fst (filter_and_sort args 0 h)))
     = [10; 20; 30].
Proof.
  intros o h args.
  pose proof (filter_and_sort_spec args h 0) as Hspec.
  destruct (filter_and_sort args 0 h) as [orders' h'] eqn:Hrun.
  destruct Hspec as (_ & _ & _ & _ & Hsame).
  split; [apply Hsame; simpl; lia|].
  injection Hrun as <- <-. reflexivity.
Defined.

End FilterProofs.

(** ** Joining texts *)

Section Strings.

Lemma append_cons (x : ascii) (a b : string) :
  String x a +:+ b = String x (a +:+ b).
Proof. reflexivity. Qed.

Lemma append_nil (b : string) : EmptyString +:+ b = b.
Proof. reflexivity. Qed.

Lemma append_assoc' (a b c : string) : (a +:+ b) +:+ c = a +:+ (b +:+ c).
Proof.
  induction a as [|x a IH]; [reflexivity|]. now rewrite !append_cons, IH.
Qed.

Lemma append_length' (a b : string) :
  String.length (a +:+ b) = (String.length a + String.length b)%nat.
Proof.
  induction a as [|x a IH]; [reflexivity|]. rewrite append_cons. simpl. now rewrite IH.
Qed.

End Strings.

(** ** The name resolver *)

Section ResolverProofs.

Import Re Resolver ResolverSpec.

Lemma match_here_star (a : atom) (ps : regex) (prev : option ascii) (s : string) :
  match_here (Star a :: ps) prev s
  = match s with
    | String c s' =>
        if atom_matches a c then
          match match_here (Star a :: ps) (Some c) s' with
          | Some rest => Some rest
          | None => match_here ps prev s
          end
        else match_here ps prev s
    | EmptyString => match_here ps prev s
    end.
Proof. destruct s; reflexivity. Qed.




(** The loop of [_FindMatchingItems] is a filter over the names of the
    catalog. *)
Lemma _FindMatchingItems_filter (name : string) (all_items : list Item) :
  _FindMatchingItems name all_items
  = List.filter (glob name) (map item_name all_items).
Proof.
  unfold _FindMatchingItems, glob.
  enough (Hgen : forall acc,
             fold_left
               (fun matches i =>
                  if re_match (translate name) (item_name i)
                  then matches ++ [item_name i] else matches) all_items acc
             = acc ++ List.filter (re_match (translate name)) (map item_name all_items))
    by apply (Hgen []).
  induction all_items as [|i l IH]; intros acc; simpl.
  - now rewrite app_nil_r.
  - rewrite IH. destruct (re_match (translate name) (item_name i)); [|reflexivity].
    now rewrite <- app_assoc.
Qed.





(** *** Characters and their case *)







(** *** Sets *)







(** *** The closing bracket *)











(** *** Patterns *)








Lemma FindMatchingItems_unfold (pat : string) (all_items : list Item) :
  FindMatchingItems pat all_items
  = match List.filter (glob pat) (map item_name all_items) with
    | [] => List.filter (glob (expand pat)) (map item_name all_items)
    | direct => direct
    end.
Proof.
  unfold FindMatchingItems. rewrite !_FindMatchingItems_filter. reflexivity.
Qed.







End ResolverProofs.

(** ** The items to look up *)

Section MainProofs.

Import Resolver Main MainSpec.

Lemma str_in_In (m : string) (l : list string) : str_in m l = true <-> In m l.
Proof.
  unfold str_in. rewrite existsb_exists. split.
  - intros (x & Hx & Heq). apply String.eqb_eq in Heq. now subst.
  - intros Hin. exists m. split; [assumption|apply String.eqb_refl].
Qed.

Lemma filter_swap {A : Type} (f g : A -> bool) (l : list A) :
  List.filter f (List.filter g l) = List.filter g (List.filter f l).
Proof.
  induction l as [|x l IH]; [reflexivity|]. simpl.
  destruct (f x) eqn:Hf, (g x) eqn:Hg; simpl; rewrite ?Hf, ?Hg, IH; reflexivity.
Qed.

Lemma filter_without (f : string -> bool) (x : string) (l : list string) :
  f x = false ->
  List.filter f (List.filter (fun y => negb (String.eqb y x)) l) = List.filter f l.
Proof.
  intros Hx. induction l as [|y l IH]; [reflexivity|]. simpl.
  destruct (String.eqb_spec y x) as [->|Hne]; simpl.
  - now rewrite Hx.
  - now rewrite IH.
Qed.

Lemma dedup_filter (f : string -> bool) (l : list string) :
  dedup (List.filter f l) = List.filter f (dedup l).
Proof.
  induction l as [|x l IH]; [reflexivity|]. simpl.
  destruct (f x) eqn:Hx; simpl.
  - now rewrite IH, filter_swap.
  - now rewrite IH, filter_without.
Qed.

Lemma filter_not_in_snoc (acc : list string) (m : string) (l : list string) :
  List.filter (fun y => negb (str_in y (acc ++ [m]))) l
  = List.filter (fun y => negb (String.eqb y m))
      (List.filter (fun y => negb (str_in y acc)) l).
Proof.
  induction l as [|y l IH]; [reflexivity|]. simpl.
  unfold str_in at 1. rewrite existsb_app. simpl. rewrite orb_false_r.
  fold (str_in y acc).
  destruct (str_in y acc); simpl; [apply IH|].
  destruct (String.eqb y m); simpl; [apply IH|]. now rewrite IH.
Qed.

Lemma extend_new_dedup (l acc : list string) :
  extend_new acc l
  = acc ++ dedup (List.filter (fun m => negb (str_in m acc)) l).
Proof.
  unfold extend_new. revert acc. induction l as [|m l IH]; intros acc; simpl.
  - now rewrite app_nil_r.
  - rewrite IH. destruct (str_in m acc) eqn:Hm; simpl; [reflexivity|].
    rewrite <- app_assoc. simpl. do 2 f_equal.
    now rewrite <- dedup_filter, filter_not_in_snoc.
Qed.

Lemma extend_new_nil (l : list string) : extend_new [] l = dedup l.
Proof.
  rewrite extend_new_dedup. simpl. f_equal.
  induction l as [|x l IH]; [reflexivity|]. simpl. now rewrite IH.
Qed.

Lemma dedup_In (l : list string) (x : string) : In x (dedup l) <-> In x l.
Proof.
  induction l as [|y l IH]; [reflexivity|]. simpl.
  rewrite filter_In, IH, negb_true_iff, String.eqb_neq.
  destruct (String.eqb_spec y x) as [->|Hne]; [tauto|].
  split; [tauto|]. intros [H|H]; [contradiction|]. right. split; [assumption|].
  congruence.
Qed.

Lemma dedup_NoDup (l : list string) : NoDup (dedup l).
Proof.
  induction l as [|x l IH]; simpl; constructor.
  - rewrite list_elem_of_In, filter_In, negb_true_iff, String.eqb_neq. tauto.
  - apply NoDup_ListNoDup. apply List.NoDup_filter. now apply NoDup_ListNoDup.
Qed.

Lemma extend_new_app (acc a b : list string) :
  extend_new acc (a ++ b) = extend_new (extend_new acc a) b.
Proof. unfold extend_new. apply fold_left_app. Qed.

Lemma lookup_loop_extends (args_list : bool) (all_items : list Item) (items : list string) :
  forall to_lookup retval res retval',
    lookup_loop args_list all_items items to_lookup retval = Ret (res, retval') ->
    res = extend_new to_lookup (flat_map (fun i => FindMatchingItems i all_items) items).
Proof.
  induction items as [|item items IH]; intros to_lookup retval res retval'; simpl.
  - intros [= <- <-]. reflexivity.
  - rewrite extend_new_app.
    destruct (length (FindMatchingItems item all_items) =? 0)%nat.
    + destruct args_list; simpl; [|discriminate]. apply IH.
    + apply IH.
Qed.

Lemma lookup_loop_list_mode (all_items : list Item) (items : list string) :
  forall to_lookup retval,
    exists res retval', lookup_loop true all_items items to_lookup retval = Ret (res, retval').
Proof.
  induction items as [|item items IH]; intros to_lookup retval; simpl; [eauto|].
  destruct (length _ =? 0)%nat; apply IH.
Qed.

Lemma lookup_loop_all_found (args_list : bool) (all_items : list Item) (items : list string) :
  (forall item, In item items -> FindMatchingItems item all_items <> []) ->
  forall to_lookup retval,
    exists res, lookup_loop args_list all_items items to_lookup retval = Ret (res, retval).
Proof.
  induction items as [|item items IH]; intros Hall to_lookup retval; simpl; [eauto|].
  destruct (FindMatchingItems item all_items) eqn:Hf.
  - exfalso. apply (Hall item); [now left|assumption].
  - simpl. apply IH. intros i Hi. apply Hall. now right.
Qed.

Lemma lookup_loop_quits (args_list : bool) (all_items : list Item) (items : list string) :
  forall to_lookup retval e,
    lookup_loop args_list all_items items to_lookup retval = Raise e ->
    args_list = false /\ e = SystemExit 1
    /\ exists item, In item items /\ FindMatchingItems item all_items = [].
Proof.
  induction items as [|item items IH]; intros to_lookup retval e; simpl; [discriminate|].
  destruct (FindMatchingItems item all_items) eqn:Hf; simpl.
  - destruct args_list; simpl.
    + intros Hl. apply IH in Hl as (Hd & _). discriminate.
    + intros [= <-]. repeat split. exists item. auto.
  - intros Hl. apply IH in Hl as (-> & -> & i & Hi & Hfi). repeat split. eauto.
Qed.

(** C10: the list [to_lookup] built from the requested patterns holds the
    first occurrence of every matched display name, in order of
    appearance, and no name twice, so the loop over it fetches the orders
    of a name at most once.  The list is always built when listing, and
    when every pattern matches something; otherwise the program quits
    with status 1 before any order is fetched. *)
Theorem to_lookup_unique (args_list : bool) (all_items : list Item) (items : list string) :
  let found := flat_map (fun i => FindMatchingItems i all_items) items in
  NoDup (dedup found)
  /\ (forall name, In name (dedup found) <-> In name found)
  /\ (forall name, (count_occ string_dec (dedup found) name <= 1)%nat)
  /\ match lookup_loop args_list all_items items [] 0 with
     | Ret (to_lookup, _) => to_lookup = dedup found
     | Raise e =>
         args_list = false /\ e = SystemExit 1
         /\ exists item, In item items /\ FindMatchingItems item all_items = []
     end
  /\ (args_list = true ->
      exists retval, lookup_loop args_list all_items items [] 0 = Ret (dedup found, retval))
  /\ ((forall item, In item items -> FindMatchingItems item all_items <> []) ->
      lookup_loop args_list all_items items [] 0 = Ret (dedup found, 0)).
Proof.
  intros found.
  assert (Hret : forall res rv,
             lookup_loop args_list all_items items [] 0 = Ret (res, rv) ->
             res = dedup found).
  { intros res rv Hl. apply lookup_loop_extends in Hl. now rewrite extend_new_nil in Hl. }
  split; [apply dedup_NoDup|]. split; [intros; apply dedup_In|].
  split; [intros name; apply List.NoDup_count_occ, NoDup_ListNoDup, dedup_NoDup|].
  split; [|split].
  - destruct (lookup_loop args_list all_items items [] 0) as [[res rv]|e] eqn:Hl.
    + eauto.
    + eapply lookup_loop_quits; eauto.
  - intros ->. destruct (lookup_loop_list_mode all_items items [] 0) as (res & rv & Hl).
    exists rv. rewrite Hl. f_equal. f_equal. eauto.
  - intros Hall. destruct (lookup_loop_all_found args_list all_items items Hall [] 0)
      as (res & Hl).
    rewrite Hl. f_equal. f_equal. eauto.
Qed.

Lemma to_lookup_unique_witness :
  let catalog :=
    map (fun n => mk_Item n "id")
      ["Ember Prime Blueprint"; "Ember Prime Chassis"; "Embolist"]%string in
  lookup_loop false catalog ["Ember*"; "ember prime bp"; "*chassis"]%string [] 0
  = Ret (["Ember Prime Blueprint"; "Ember Prime Chassis"]%string, 0).
Proof.
  intros catalog.
  destruct (to_lookup_unique false catalog ["Ember*"; "ember prime bp"; "*chassis"]%string)
    as (_ & _ & _ & _ & _ & Hall).
  rewrite Hall; [reflexivity|].
  intros item [<-|[<-|[<-|[]]]]; discriminate.
Defined.

End MainProofs.

(** ** Cache file names *)

Section CachePathProofs.

Import Cache CacheSpec.

Lemma append_cancel_l (a x y : string) : a +:+ x = a +:+ y -> x = y.
Proof.
  induction a as [|c a IH]; [auto|]. rewrite !append_cons. intros [= H]. auto.
Qed.

Lemma append_cancel_r (s a b : string) : a +:+ s = b +:+ s -> a = b.
Proof.
  revert b. induction a as [|c a IH]; intros [|d b] H;
    rewrite ?append_cons, ?append_nil in H.
  - reflexivity.
  - apply (f_equal String.length) in H. simpl in H. rewrite append_length' in H. lia.
  - apply (f_equal String.length) in H. simpl in H. rewrite append_length' in H. lia.
  - injection H as -> H. f_equal. auto.
Qed.

Lemma no_hyphen_app (a b : string) :
  no_hyphen (a +:+ b) = no_hyphen a && no_hyphen b.
Proof.
  induction a as [|c a IH]; [reflexivity|].
  rewrite append_cons. simpl. now rewrite IH, andb_assoc.
Qed.

(** Two texts that agree after a hyphen-free head agree on the head. *)
Lemma split_first_hyphen (p1 p2 x y : string) :
  no_hyphen p1 = true -> no_hyphen p2 = true ->
  p1 +:+ String "-" x = p2 +:+ String "-" y -> p1 = p2 /\ x = y.
Proof.
  revert p2. induction p1 as [|c p1 IH]; intros [|d p2] H1 H2 H;
    rewrite ?append_cons, ?append_nil in H; simpl in H1, H2.
  - injection H as ->. auto.
  - injection H as <- _. discriminate.
  - injection H as -> _. discriminate.
  - injection H as -> H. apply andb_true_iff in H1 as [_ H1].
    apply andb_true_iff in H2 as [_ H2].
    destruct (IH p2 H1 H2 H) as [-> ->]. auto.
Qed.

(** Two texts that agree before a hyphen-free tail agree on the tail. *)
Lemma split_last_hyphen (x y l1 l2 : string) :
  no_hyphen l1 = true -> no_hyphen l2 = true ->
  x +:+ String "-" l1 = y +:+ String "-" l2 -> x = y /\ l1 = l2.
Proof.
  intros H1 H2. revert y. induction x as [|c x IH]; intros [|d y] H;
    rewrite ?append_cons, ?append_nil in H.
  - injection H as ->. auto.
  - injection H as _ ->. rewrite no_hyphen_app in H1. simpl in H1.
    rewrite andb_false_r in H1. discriminate.
  - injection H as _ <-. rewrite no_hyphen_app in H2. simpl in H2.
    rewrite andb_false_r in H2. discriminate.
  - injection H as -> H. destruct (IH y H) as [-> ->]. auto.
Qed.

(** C9, as amended: for platforms and locales without a hyphen, equal
    cache file names come from equal resource, platform and locale; and
    for one resource, equal names come from equal platform and locale as
    soon as the platforms have no hyphen (the four accepted platforms
    have none). *)
Theorem cache_path_injective (cache_dir : string) :
  (forall r1 p1 l1 r2 p2 l2,
      no_hyphen p1 = true -> no_hyphen l1 = true ->
      no_hyphen p2 = true -> no_hyphen l2 = true ->
      cache_path cache_dir r1 p1 l1 = cache_path cache_dir r2 p2 l2 ->
      (r1, p1, l1) = (r2, p2, l2))
  /\ (forall r p1 l1 p2 l2,
        no_hyphen p1 = true -> no_hyphen p2 = true ->
        cache_path cache_dir r p1 l1 = cache_path cache_dir r p2 l2 ->
        (p1, l1) = (p2, l2)).
Proof.
  unfold cache_path. split.
  - intros r1 p1 l1 r2 p2 l2 Hp1 Hl1 Hp2 Hl2 H.
    apply append_cancel_l in H. rewrite !append_cons, !append_nil in H.
    injection H as H.
    assert (Hre : forall r p l : string,
               r +:+ String "-" (p +:+ String "-" (l +:+ ".json"))
               = (r +:+ String "-" p) +:+ String "-" (l +:+ ".json")).
    { intros. now rewrite append_assoc', append_cons. }
    rewrite !Hre in H.
    apply split_last_hyphen in H as [H Hl];
      [|rewrite no_hyphen_app, ?Hl1, ?Hl2; reflexivity ..].
    apply append_cancel_r in Hl. subst l2.
    apply split_last_hyphen in H as [-> ->]; auto.
  - intros r p1 l1 p2 l2 Hp1 Hp2 H.
    apply append_cancel_l in H. rewrite !append_cons, !append_nil in H.
    injection H as H. apply append_cancel_l in H. injection H as H.
    apply split_first_hyphen in H as [-> H]; auto.
    apply append_cancel_r in H. now subst.
Qed.

Lemma cache_path_injective_witness :
  (("all_items", "pc", "en") = ("all_items", "pc", "en"))%string.
Proof.
  apply (proj1 (cache_path_injective "/home/tenno/.cache/warframe-market"));
    reflexivity.
Defined.

(** C9, as stated, fails: the resource [ash-orders] with locale
    [orders-pc-en] and the resource [ash-orders-pc-orders] with locale
    [en], both on platform [pc], share one cache file. *)
Lemma cache_path_collision_counterexample :
  ("ash-orders", "pc", "orders-pc-en")%string
  <> ("ash-orders-pc-orders", "pc", "en")%string
  /\ cache_path "/home/tenno/.cache/warframe-market" "ash-orders" "pc" "orders-pc-en"
     = cache_path "/home/tenno/.cache/warframe-market" "ash-orders-pc-orders" "pc" "en".
Proof. split; [discriminate|reflexivity]. Qed.

End CachePathProofs.

(** ** Request throttling *)

Section ThrottleProofs.

Import Throttle.

Lemma request_delay_near (rate_limit : Z) :
  rate_limit <> 0 ->
  exists d, request_delay rate_limit = Ret d
            /\ 2 * Z.abs (d * rate_limit - 60000000) <= Z.abs rate_limit.
Proof.
  intros Hr. unfold request_delay.
  destruct (Z.eqb_spec rate_limit 0) as [|_]; [contradiction|].
  eexists. split; [reflexivity|].
  pose proof (py_round_nearest (inject_Z 60000000 / inject_Z rate_limit)) as Hn.
  set (d := py_round (inject_Z 60000000 / inject_Z rate_limit)) in *.
  unfold SummarySpec.nearest in Hn.
  destruct rate_limit as [|p|p]; [contradiction| |].
  - unfold Qdiv, Qinv, Qmult, Qminus, Qplus, Qopp, Qabs, Qle, inject_Z in Hn.
    simpl in Hn. lia.
  - unfold Qdiv, Qinv, Qmult, Qminus, Qplus, Qopp, Qabs, Qle, inject_Z in Hn.
    simpl in Hn. lia.
Qed.

Lemma ThrottleRequests_sleeps (delay lag last : Z) (st : State) :
  last_request st = Some last -> 500 <= last + delay - clock st ->
  ThrottleRequests delay lag st
  = {| clock := clock st + (last + delay - clock st) + lag;
       last_request := Some (clock st + (last + delay - clock st) + lag);
       slept := slept st ++ [last + delay - clock st] |}.
Proof.
  intros Hl Hrem. unfold ThrottleRequests. rewrite Hl.
  destruct (Z.leb_spec 500 (last + delay - clock st)); [reflexivity|lia].
Qed.

Lemma ThrottleRequests_passes (delay lag : Z) (st : State) :
  match last_request st with
  | Some last => last + delay - clock st < 500
  | None => True
  end ->
  ThrottleRequests delay lag st
  = {| clock := clock st; last_request := Some (clock st); slept := slept st |}.
Proof.
  unfold ThrottleRequests. destruct (last_request st) as [last|]; [|reflexivity].
  intros Hrem. destruct (Z.leb_spec 500 (last + delay - clock st)); [lia|reflexivity].
Qed.

(** C8: with a previous request and at least 500 microseconds left until
    [last_request + request_delay], [ThrottleRequests] sleeps for exactly
    the time left and records the time after the sleep; with less time
    left, or without a previous request, it does not sleep and records the
    current time.  [request_delay] is 60 seconds divided by the rate limit,
    to the nearest microsecond, one second for a rate limit of 60; two calls
    with that delay record times more than one second less 500 microseconds
    apart, whatever time passes between them and however long the sleep
    overshoots. *)
Theorem ThrottleRequests_spec :
  (forall delay lag st,
      let st' := ThrottleRequests delay lag st in
      match last_request st with
      | Some last =>
          let time_left := last + delay - clock st in
          (500 <= time_left ->
           slept st' = slept st ++ [time_left]
           /\ clock st' = clock st + time_left + lag
           /\ last_request st' = Some (clock st'))
          /\ (time_left < 500 ->
              slept st' = slept st /\ clock st' = clock st
              /\ last_request st' = Some (clock st))
      | None =>
          slept st' = slept st /\ clock st' = clock st
          /\ last_request st' = Some (clock st)
      end)
  /\ request_delay 60 = Ret 1000000
  /\ (forall rate_limit,
        rate_limit <> 0 ->
        exists d, request_delay rate_limit = Ret d
                  /\ 2 * Z.abs (d * rate_limit - 60000000) <= Z.abs rate_limit)
  /\ (forall st lag1 lag2 dt,
        0 <= lag1 -> 0 <= lag2 -> 0 <= dt ->
        let st1 := ThrottleRequests 1000000 lag1 st in
        let st2 := ThrottleRequests 1000000 lag2 (elapse dt st1) in
        exists t1 t2,
          last_request st1 = Some t1 /\ last_request st2 = Some t2
          /\ t1 + 1000000 - 500 < t2).
Proof.
  split; [|split; [|split]].
  - intros delay lag st st'. subst st'.
    destruct (last_request st) as [last|] eqn:Hl.
    + split; intros Hrem.
      * rewrite (ThrottleRequests_sleeps _ _ last) by assumption. auto.
      * rewrite ThrottleRequests_passes by (rewrite Hl; assumption). auto.
    + rewrite ThrottleRequests_passes by (now rewrite Hl). auto.
  - reflexivity.
  - apply request_delay_near.
  - intros st lag1 lag2 dt H1 H2 Hdt st1 st2.
    assert (Hst1 : exists t1, last_request st1 = Some t1 /\ clock st1 = t1).
    { subst st1. unfold ThrottleRequests.
      destruct (last_request st) as [last|]; [|simpl; eauto].
      destruct (500 <=? last + 1000000 - clock st); simpl; eauto. }
    destruct Hst1 as (t1 & Hl1 & Hc1). exists t1.
    assert (Hel : last_request (elapse dt st1) = Some t1) by exact Hl1.
    assert (Hcl : clock (elapse dt st1) = t1 + dt) by (simpl; lia).
    destruct (Z.le_gt_cases 500 (t1 + 1000000 - clock (elapse dt st1))) as [Hrem|Hrem].
    + subst st2. rewrite (ThrottleRequests_sleeps _ _ t1) by assumption.
      eexists. split; [assumption|]. split; [reflexivity|]. lia.
    + subst st2. rewrite ThrottleRequests_passes by (rewrite Hel; assumption).
      eexists. split; [assumption|]. split; [reflexivity|]. lia.
Qed.

Lemma ThrottleRequests_spec_witness :
  let st := {| clock := 5000000; last_request := Some 4800000; slept := [] |} in
  slept (ThrottleRequests 1000000 30 st) = [800000]
  /\ last_request (ThrottleRequests 1000000 30 st) = Some 5800030
  /\ exists t1 t2,
       last_request (ThrottleRequests 1000000 30 st) = Some t1
       /\ last_request (ThrottleRequests 1000000 0
                          (elapse 999800 (ThrottleRequests 1000000 30 st))) = Some t2
       /\ t1 + 1000000 - 500 < t2.
Proof.
  intros st. destruct ThrottleRequests_spec as (Hstep & _ & _ & Hpair).
  pose proof (Hstep 1000000 30 st) as Hs. simpl in Hs.
  destruct Hs as [Hs _]. destruct (Hs ltac:(lia)) as (Hsl & Hc & Hl).
  split; [exact Hsl|]. split; [exact Hl|].
  apply (Hpair st 30 0 999800); lia.
Defined.

End ThrottleProofs.

(** ** The disk cache *)

Section GetDataProofs.

Import Cache CacheSpec.

Context {J : Type} `{Backend J}.
Context (cache_dir platform language : string).



















End GetDataProofs.


(** C6, where it fails: on 5 November 2026, with a cache file written a
    hundred seconds before, a TTL of a million days makes [GetData] raise
    [OverflowError], although the file was modified strictly after
    [now - ttl]: that point in time lies before the year 1. *)
Theorem GetData_overflow_counterexample :
  let dir := "/cache"%string in
  let path := Cache.cache_path dir "all_items" "pc" "en" in
  let now := 63929476800000000 in
  let mtime := now - 100000000 in
  let ttl := 1000000 * 86400000000 in
  let w :=
    {| Cache.clock := now;
       Cache.fs := <[path := Cache.File mtime "cached"]> {[dir := Cache.Dir 0]};
       Cache.log := [] |} in
  TTL.StrToTimeDelta "1000000d" = Ret (Some (TTL.of_seconds (1000000 * 86400)))
  /\ now - ttl < mtime
  /\ fst (Cache.GetData (H := CacheSpec.example_backend) dir "pc" "en"
            "all_items" "url" "all items" (Some ttl) w)
     = Raise OverflowError.
Proof.
  intros dir path now mtime ttl w. split; [|split].
  - vm_compute. reflexivity.
  - subst now mtime ttl. lia.
  - vm_compute. reflexivity.
Qed.

(** * Further properties *)

(** ** The TTL parser *)

Section TTLMore.

Import TTL TTLSpec TTLUnits.

Lemma timedelta_new_single (key : string) (n k : Z) :
  In (key, k) unit_table ->
  timedelta_new [(key, n)]
  = if Z.abs (n * k / 86400) <=? MAX_DELTA_DAYS then Ret (of_seconds (n * k))
    else Raise OverflowError.
Proof.
  intros Hk. unfold timedelta_new.
  assert (kwarg [(key, n)] "days" * 86400 + kwarg [(key, n)] "hours" * 3600
          + kwarg [(key, n)] "minutes" * 60 + kwarg [(key, n)] "seconds" = n * k) as ->.
  { simpl in Hk. destruct Hk as [[= <- <-]|[[= <- <-]|[[= <- <-]|[[= <- <-]|[]]]]];
      unfold kwarg; simpl; lia. }
  now rewrite days_of_seconds.
Qed.

(** A match fills exactly one group, with a non-empty run of digits. *)
Lemma groupdict_params (s : string) (parts : list (string * option string)) :
  groupdict s = Some parts ->
  exists key k ds,
    In (key, k) unit_table /\ ds <> EmptyString /\ all_digits ds = true
    /\ time_params parts = [(key, int ds)].
Proof.
  assert (Hone : forall u optional ds,
             match_alt u optional s = Some ds ->
             ds <> EmptyString /\ all_digits ds = true /\ exists c v, ds = String c v).
  { intros u optional ds Hm. apply match_alt_Some in Hm as (Hne & Hd & _).
    repeat split; try assumption. destruct ds; [contradiction|eauto]. }
  unfold groupdict.
  destruct (match_alt "d" false s) as [ds|] eqn:Ed.
  { intros [= <-]. destruct (Hone _ _ _ Ed) as (Hne & Hd & c & v & ->).
    exists "days"%string, 86400, (String c v). simpl. auto 10. }
  destruct (match_alt "h" false s) as [ds|] eqn:Eh.
  { intros [= <-]. destruct (Hone _ _ _ Eh) as (Hne & Hd & c & v & ->).
    exists "hours"%string, 3600, (String c v). simpl. auto 10. }
  destruct (match_alt "m" false s) as [ds|] eqn:Em.
  { intros [= <-]. destruct (Hone _ _ _ Em) as (Hne & Hd & c & v & ->).
    exists "minutes"%string, 60, (String c v). simpl. auto 10. }
  destruct (match_alt "s" true s) as [ds|] eqn:Es; [|discriminate].
  intros [= <-]. destruct (Hone _ _ _ Es) as (Hne & Hd & c & v & ->).
  exists "seconds"%string, 1, (String c v). simpl. auto 10.
Qed.

(** X1: Every duration that the parser returns is a whole, non-negative number
    of seconds in normal form, of at most 999999999 days. *)
Theorem StrToTimeDelta_normalised (s : string) (td : timedelta) :
  StrToTimeDelta s = Ret (Some td) ->
  0 <= days td <= MAX_DELTA_DAYS
  /\ 0 <= seconds td < 86400
  /\ microseconds td = 0.
Proof.
  unfold StrToTimeDelta. destruct s as [|c s]; [discriminate|].
  destruct (groupdict (String c s)) as [parts|] eqn:Hg; [|discriminate].
  apply groupdict_params in Hg as (key & k & ds & Hk & Hne & Hd & ->).
  rewrite (timedelta_new_single key (int ds) k Hk).
  assert (Hn : 0 <= int ds) by (apply int_acc_nonneg; [assumption|lia]).
  assert (Hkpos : 0 < k).
  { simpl in Hk. destruct Hk as [[= <- <-]|[[= <- <-]|[[= <- <-]|[[= <- <-]|[]]]]]; lia. }
  destruct (Z.leb_spec (Z.abs (int ds * k / 86400)) MAX_DELTA_DAYS) as [Hr|Hr];
    [|discriminate].
  simpl. intros [= <-].
  assert (Ht : 0 <= int ds * k) by nia.
  assert (Hdiv : 0 <= int ds * k / 86400) by (apply Z.div_pos; lia).
  rewrite days_of_seconds. unfold of_seconds, of_microseconds. simpl.
  split; [lia|]. split.
  - replace 86400000000 with (86400 * 1000000) by reflexivity.
    rewrite Z.mul_mod_distr_r by lia. rewrite Z.div_mul by lia.
    apply Z.mod_pos_bound. lia.
  - apply Z.mod_mul. lia.
Qed.

Lemma StrToTimeDelta_normalised_witness :
  0 <= 0 <= MAX_DELTA_DAYS /\ 0 <= 5400 < 86400 /\ 0 = 0.
Proof.
  apply (StrToTimeDelta_normalised "90m"
           {| days := 0; seconds := 5400; microseconds := 0 |}).
  reflexivity.
Defined.

(** X2: Two well-formed strings that denote the same number of seconds parse
    to the same result, whatever their units: [1d], [24h], [1440m],
    [86400s] and [86400] are one duration. *)
Theorem StrToTimeDelta_same_duration (ds1 u1 ds2 u2 : string) (k1 k2 : Z) :
  ds1 <> EmptyString -> all_digits ds1 = true ->
  (String.length ds1 <= MAX_STR_DIGITS)%nat -> unit_seconds u1 = Some k1 ->
  ds2 <> EmptyString -> all_digits ds2 = true ->
  (String.length ds2 <= MAX_STR_DIGITS)%nat -> unit_seconds u2 = Some k2 ->
  int ds1 * k1 = int ds2 * k2 ->
  StrToTimeDelta (ds1 +:+ u1) = StrToTimeDelta (ds2 +:+ u2).
Proof.
  intros Hne1 Hd1 _ Hu1 Hne2 Hd2 _ Hu2 Heq.
  destruct (Z.le_gt_cases (int ds1 * k1 / 86400) MAX_DELTA_DAYS) as [Hr|Hr].
  - rewrite (StrToTimeDelta_accepts ds1 u1 k1) by assumption.
    rewrite (StrToTimeDelta_accepts ds2 u2 k2) by (try assumption; now rewrite <- Heq).
    now rewrite Heq.
  - rewrite (StrToTimeDelta_overflows ds1 u1 k1) by assumption.
    rewrite (StrToTimeDelta_overflows ds2 u2 k2) by (try assumption; now rewrite <- Heq).
    reflexivity.
Qed.

Lemma StrToTimeDelta_same_duration_witness :
  StrToTimeDelta "1d" = StrToTimeDelta "24h"
  /\ StrToTimeDelta "1440m" = StrToTimeDelta "86400"
  /\ StrToTimeDelta "24h" = StrToTimeDelta "86400s".
Proof.
  split; [|split].
  - apply (StrToTimeDelta_same_duration "1" "d" "24" "h" 86400 3600);
      solve [discriminate | reflexivity | vm_compute; lia].
  - apply (StrToTimeDelta_same_duration "1440" "m" "86400" "" 60 1);
      solve [discriminate | reflexivity | vm_compute; lia].
  - apply (StrToTimeDelta_same_duration "24" "h" "86400" "s" 3600 1);
      solve [discriminate | reflexivity | vm_compute; lia].
Defined.

Lemma match_alt_letter_LF (u u' : ascii) (optional : bool) (ds : string) :
  ds <> EmptyString -> all_digits ds = true -> is_digit u' = false ->
  match_alt u optional (ds +:+ String u' (String LF EmptyString))
  = if Ascii.eqb u' u then Some ds else None.
Proof.
  intros Hne Hd Hu. unfold match_alt.
  rewrite span_digits_app by assumption.
  destruct ds as [|c ds]; [contradiction|].
  simpl. destruct (Ascii.eqb u' u), optional; reflexivity.
Qed.

Lemma match_alt_bare_LF (u : ascii) (optional : bool) (ds : string) :
  ds <> EmptyString -> all_digits ds = true -> Ascii.eqb LF u = false ->
  match_alt u optional (ds +:+ String LF EmptyString)
  = if optional then Some ds else None.
Proof.
  intros Hne Hd Hu. unfold match_alt.
  rewrite span_digits_app by (assumption || reflexivity).
  destruct ds as [|c ds]; [contradiction|].
  rewrite Hu. destruct optional; reflexivity.
Qed.

Lemma groupdict_LF (ds u : string) (k : Z) :
  ds <> EmptyString -> all_digits ds = true -> unit_seconds u = Some k ->
  groupdict (ds +:+ with_LF u) = groupdict (ds +:+ u).
Proof.
  intros Hne Hd Hu. unfold unit_seconds in Hu. unfold with_LF.
  destruct (String.eqb_spec u "d") as [->|_].
  { change ("d" +:+ String LF "")%string with (String "d" (String LF "")).
    unfold groupdict.
    now rewrite !match_alt_letter_LF, !match_alt_letter by (assumption || reflexivity). }
  destruct (String.eqb_spec u "h") as [->|_].
  { change ("h" +:+ String LF "")%string with (String "h" (String LF "")).
    unfold groupdict.
    now rewrite !match_alt_letter_LF, !match_alt_letter by (assumption || reflexivity). }
  destruct (String.eqb_spec u "m") as [->|_].
  { change ("m" +:+ String LF "")%string with (String "m" (String LF "")).
    unfold groupdict.
    now rewrite !match_alt_letter_LF, !match_alt_letter by (assumption || reflexivity). }
  destruct (String.eqb_spec u "s") as [->|_].
  { change ("s" +:+ String LF "")%string with (String "s" (String LF "")).
    unfold groupdict.
    now rewrite !match_alt_letter_LF, !match_alt_letter by (assumption || reflexivity). }
  destruct (String.eqb_spec u "") as [->|_]; [|discriminate].
  change ("" +:+ String LF "")%string with (String LF "").
  unfold groupdict.
  rewrite !match_alt_bare_LF by (assumption || reflexivity).
  destruct (match_alt_bare "d" ds Hne Hd) as [_ ->].
  destruct (match_alt_bare "h" ds Hne Hd) as [_ ->].
  destruct (match_alt_bare "m" ds Hne Hd) as [_ ->].
  destruct (match_alt_bare "s" ds Hne Hd) as [-> _].
  reflexivity.
Qed.

(** X3: A line feed at the end of a well-formed string goes unnoticed: the
    string parses as it does without it, since [$] also matches in front
    of a final line feed. *)
Theorem StrToTimeDelta_trailing_LF (ds u : string) (k : Z) :
  ds <> EmptyString -> all_digits ds = true ->
  (String.length ds <= MAX_STR_DIGITS)%nat -> unit_seconds u = Some k ->
  StrToTimeDelta (ds +:+ with_LF u) = StrToTimeDelta (ds +:+ u).
Proof.
  intros Hne Hd _ Hu. unfold StrToTimeDelta.
  rewrite (groupdict_LF ds u k) by assumption.
  destruct ds as [|c ds]; [contradiction|]. reflexivity.
Qed.

Lemma StrToTimeDelta_trailing_LF_witness :
  StrToTimeDelta ("10" +:+ with_LF "m")
  = Ret (Some {| days := 0; seconds := 600; microseconds := 0 |}).
Proof.
  rewrite (StrToTimeDelta_trailing_LF "10" "m" 60);
    solve [discriminate | reflexivity | vm_compute; lia].
Defined.

End TTLMore.

(** ** Trimming, sorting and the tables *)

Section OrdersMoreProofs.

Import SummarySpec FilterSpec Orders OrdersMore Display.

Lemma list_remove_In (x : Z) (l : list Z) :
  In x l ->
  exists l', list_remove x l = Ret l' /\ Permutation l (x :: l') /\ sublist l' l.
Proof.
  induction l as [|y l IH]; [intros []|]. intros Hin. simpl.
  destruct (Z.eqb_spec y x) as [->|Hne].
  - exists l. repeat split; [reflexivity|]. now constructor.
  - destruct Hin as [Heq|Hin]; [contradiction|].
    destruct (IH Hin) as (l' & -> & Hp & Hs). simpl. exists (y :: l').
    repeat split.
    + rewrite Hp. apply perm_swap.
    + now constructor.
Qed.

(** X4: [NoMinMax] leaves up to five values as they are.  From six values on
    it does not raise and drops one least and one greatest value: what is
    returned, with the two values put back, is the argument up to order,
    and the values returned keep their order. *)
Theorem NoMinMax_trims (data : list Z) :
  ((length data <= 5)%nat -> NoMinMax data = Ret data)
  /\ ((5 < length data)%nat ->
      exists lo hi rest,
        NoMinMax data = Ret rest
        /\ is_minimum lo data /\ is_maximum hi data
        /\ Permutation data (lo :: hi :: rest)
        /\ sublist rest data
        /\ length rest = (length data - 2)%nat).
Proof.
  split; [apply NoMinMax_upto_five|].
  intros Hlen. unfold NoMinMax.
  destruct (Nat.ltb_spec 5 (length data)) as [_|]; [|lia].
  destruct data as [|x data]; [simpl in Hlen; lia|].
  pose proof (fold_min_spec data x) as [Hlo_in Hlo].
  set (lo := fold_left Z.min data x) in *.
  change (py_min (x :: data)) with (Ret lo). cbv beta iota delta [obind].
  destruct (list_remove_In lo (x :: data) Hlo_in) as (data1 & Hrm1 & Hp1 & Hs1).
  rewrite Hrm1.
  assert (Hlen1 : length data1 = length data).
  { apply Permutation_length in Hp1. simpl in Hp1. lia. }
  destruct data1 as [|y data1]; [simpl in *; lia|].
  pose proof (fold_max_spec data1 y) as [Hhi_in Hhi].
  set (hi := fold_left Z.max data1 y) in *.
  change (py_max (y :: data1)) with (Ret hi). cbv beta iota.
  destruct (list_remove_In hi (y :: data1) Hhi_in) as (rest & Hrm2 & Hp2 & Hs2).
  rewrite Hrm2.
  exists lo, hi, rest. split; [reflexivity|].
  split; [split; assumption|]. split; [|split; [|split]].
  - split.
    + eapply Permutation_in; [symmetry; exact Hp1|]. now right.
    + intros z Hz. eapply Permutation_in in Hz; [|exact Hp1].
      destruct Hz as [<-|Hz]; [|now apply Hhi].
      apply Hlo. eapply Permutation_in; [symmetry; exact Hp1|]. now right.
  - rewrite Hp1. constructor. exact Hp2.
  - etransitivity; eassumption.
  - apply Permutation_length in Hp2. simpl in *. lia.
Qed.

Lemma NoMinMax_trims_witness :
  exists lo hi rest,
    NoMinMax [7; 3; 9; 3; 12; 9; 12; 5] = Ret rest
    /\ is_minimum lo [7; 3; 9; 3; 12; 9; 12; 5]
    /\ is_maximum hi [7; 3; 9; 3; 12; 9; 12; 5]
    /\ Permutation [7; 3; 9; 3; 12; 9; 12; 5] (lo :: hi :: rest)
    /\ sublist rest [7; 3; 9; 3; 12; 9; 12; 5]
    /\ length rest = 6%nat.
Proof.
  apply (proj2 (NoMinMax_trims [7; 3; 9; 3; 12; 9; 12; 5])). simpl. lia.
Defined.

Lemma with_key_insert {A : Type} (key : A -> Z) (k : Z) (x : A) (l : list A) :
  with_key key k (insert_sorted key x l) = with_key key k (x :: l).
Proof.
  unfold with_key. induction l as [|y l IH]; [reflexivity|]. simpl.
  destruct (Z.leb_spec (key x) (key y)) as [Hle|Hgt]; [reflexivity|].
  simpl. simpl in IH. rewrite IH.
  destruct (Z.eqb_spec (key x) k) as [Hx|Hx]; [|reflexivity].
  destruct (Z.eqb_spec (key y) k) as [Hy|Hy]; [lia|reflexivity].
Qed.

Lemma with_key_stable_sort {A : Type} (key : A -> Z) (k : Z) (l : list A) :
  with_key key k (stable_sort key l) = with_key key k l.
Proof.
  induction l as [|x l IH]; [reflexivity|].
  unfold stable_sort in *. simpl foldr. rewrite with_key_insert.
  unfold with_key in *. simpl. now rewrite IH.
Qed.

(** X5: The sort is stable in both directions: the orders of one price come
    out in the order in which they went in. *)
Theorem list_sort_stable {A : Type} (key : A -> Z) (reverse : bool) (k : Z) (l : list A) :
  with_key key k (list_sort key reverse l) = with_key key k l.
Proof.
  unfold list_sort. destruct reverse; [|apply with_key_stable_sort].
  unfold with_key. rewrite filter_rev.
  fold (with_key key k (stable_sort key (rev l))).
  rewrite with_key_stable_sort. unfold with_key.
  now rewrite filter_rev, rev_involutive.
Qed.

Lemma take_drop_sorted {A : Type} (R : relation A) (n : nat) (l : list A) :
  StronglySorted R l ->
  forall a b, In a (take n l) -> In b (drop n l) -> R a b.
Proof.
  intros Hs a b Ha Hb. rewrite <- (take_drop n l) in Hs.
  apply (StronglySorted_app_1_elem_of R (take n l) (drop n l));
    [assumption | now apply list_elem_of_In | now apply list_elem_of_In].
Qed.

(** X6: The order table of an item: without [--all] it has the rows of the
    first five orders of the sorted list, at most five, and no order left
    out has a better price than an order shown; with [--all] it has a row
    for every order. *)
Theorem order_rows_best (reverse : bool) (kept : list Order) :
  let sorted := list_sort GetPrice reverse kept in
  order_rows false sorted = map row_of (take 5 sorted)
  /\ length (order_rows false sorted) = Nat.min 5 (length kept)
  /\ (forall shown hidden,
        In shown (take 5 sorted) -> In hidden (drop 5 sorted) ->
        price_order reverse shown hidden)
  /\ order_rows true sorted = map row_of sorted.
Proof.
  intros sorted. split; [reflexivity|]. split; [|split; [|reflexivity]].
  - unfold order_rows. simpl negb. cbv iota.
    rewrite length_map, length_take.
    unfold sorted. now rewrite (Permutation_length (list_sort_perm GetPrice reverse kept)).
  - apply take_drop_sorted. apply list_sort_sorted.
Qed.

Lemma order_rows_best_witness :
  let o := fun p => mk_Order "sell" p 1 "pc" "en" (mk_User "ingame" "Tenno") in
  price_order false (o 7) (o 9)
  /\ length (order_rows false (list_sort GetPrice false (map o [9; 4; 7; 1; 8; 3; 6])))
     = 5%nat.
Proof.
  intros o.
  destruct (order_rows_best false (map o [9; 4; 7; 1; 8; 3; 6]))
    as (_ & Hlen & Hbest & _).
  split.
  - apply Hbest; simpl; auto 10.
  - rewrite Hlen. reflexivity.
Defined.







End OrdersMoreProofs.

(** ** Patterns and names *)

Section ResolverMoreProofs.

Import Re Resolver ResolverSpec ResolverMore.









Lemma StronglySorted_sublist {A : Type} (R : relation A) (l1 l2 : list A) :
  sublist l1 l2 -> StronglySorted R l2 -> StronglySorted R l1.
Proof.
  induction 1 as [|x l1 l2 Hsub IH|x l1 l2 Hsub IH]; intros Hs.
  - constructor.
  - apply StronglySorted_cons in Hs as [Hall Hs]. constructor; [now apply IH|].
    rewrite Forall_forall in *. intros y Hy. apply Hall.
    now apply (sublist_subseteq _ _ Hsub).
  - apply StronglySorted_cons in Hs as [_ Hs]. now apply IH.
Qed.

(** X10: The matches of a pattern are names of the catalog, in catalog order:
    for a catalog sorted by name the matches are sorted, whatever the
    order relation, and for a catalog without a repeated name no match
    is repeated. *)
Theorem FindMatchingItems_sublist (pat : string) (all_items : list Item) :
  let names := map item_name all_items in
  sublist (FindMatchingItems pat all_items) names
  /\ (forall R : relation string,
        StronglySorted R names -> StronglySorted R (FindMatchingItems pat all_items))
  /\ (NoDup names -> NoDup (FindMatchingItems pat all_items)).
Proof.
  intros names.
  assert (Hsub : sublist (FindMatchingItems pat all_items) names).
  { rewrite FindMatchingItems_unfold. fold names.
    destruct (List.filter (glob pat) names) eqn:Hf.
    - apply sublist_List_filter.
    - rewrite <- Hf. apply sublist_List_filter. }
  split; [exact Hsub|]. split.
  - intros R. now apply StronglySorted_sublist.
  - intros Hnd. eapply sublist_NoDup; eassumption.
Qed.

Lemma FindMatchingItems_sublist_witness :
  NoDup (FindMatchingItems "*prime*"
           [mk_Item "Ember Prime Set" "a"; mk_Item "Embolist" "b";
            mk_Item "Frost Prime Set" "c"]).
Proof.
  apply (FindMatchingItems_sublist "*prime*"
           [mk_Item "Ember Prime Set" "a"; mk_Item "Embolist" "b";
            mk_Item "Frost Prime Set" "c"]).
  simpl. apply NoDup_ListNoDup. repeat constructor; simpl; intuition discriminate.
Defined.

Lemma lower_facts (c : ascii) :
  lower (lower c) = lower c /\ upper (lower c) = upper c
  /\ (c = lower c \/ c = upper c) /\ is_word (lower c) = is_word c.
Proof.
  destruct c as [[] [] [] [] [] [] [] []]; vm_compute;
    (repeat split; first [reflexivity | left; reflexivity | right; reflexivity]).
Qed.

Lemma atom_matches_lower (a : atom) (c : ascii) :
  atom_matches a (lower c) = atom_matches a c.
Proof.
  destruct (lower_facts c) as (Hll & Hul & Hc & _).
  destruct a as [x| |negate items]; simpl; [|reflexivity|].
  - unfold eq_nocase. now rewrite Hll.
  - f_equal. induction items as [|it items IH]; [reflexivity|]. simpl.
    rewrite IH. f_equal. destruct it as [x|lo hi]; simpl.
    + unfold eq_nocase. now rewrite Hll.
    + rewrite Hll, Hul.
      assert (Hin : in_range lo hi c = in_range lo hi (lower c)
                    \/ in_range lo hi c = in_range lo hi (upper c))
        by (destruct Hc as [Hc|Hc]; [left|right]; now rewrite <- Hc).
      destruct Hin as [-> | ->];
        destruct (in_range lo hi (lower c)), (in_range lo hi (upper c)); reflexivity.
Qed.

Lemma word_boundary_lower (prev : option ascii) (s : string) :
  word_boundary (option_map lower prev) (lower_str s) = word_boundary prev s.
Proof.
  unfold word_boundary. f_equal.
  - destruct prev as [c|]; [|reflexivity]. simpl. apply lower_facts.
  - destruct s as [|c s]; [reflexivity|]. simpl. apply lower_facts.
Qed.

(** Matching commutes with making the subject small. *)
Lemma match_here_lower (ps : regex) :
  forall prev s,
    match_here ps (option_map lower prev) (lower_str s)
    = option_map lower_str (match_here ps prev s).
Proof.
  induction ps as [|p ps IH]; intros prev s; [reflexivity|].
  destruct p as [a|a|a| |].
  - simpl. destruct s as [|c s]; [reflexivity|]. simpl.
    rewrite atom_matches_lower. destruct (atom_matches a c); [|reflexivity].
    apply (IH (Some c) s).
  - simpl. destruct s as [|c s]; [apply (IH prev EmptyString)|]. simpl.
    rewrite atom_matches_lower. destruct (atom_matches a c).
    + pose proof (IH (Some c) s) as H1.
      change (option_map lower (Some c)) with (Some (lower c)) in H1. rewrite H1.
      destruct (match_here ps (Some c) s); [reflexivity|].
      apply (IH prev (String c s)).
    + apply (IH prev (String c s)).
  - revert prev. induction s as [|c s IHs]; intros prev.
    + rewrite !match_here_star. apply (IH prev EmptyString).
    + change (lower_str (String c s)) with (String (lower c) (lower_str s)).
      rewrite (match_here_star a ps prev (String c s)).
      rewrite (match_here_star a ps (option_map lower prev)).
      rewrite atom_matches_lower. destruct (atom_matches a c).
      * pose proof (IHs (Some c)) as H1.
        change (option_map lower (Some c)) with (Some (lower c)) in H1. rewrite H1.
        destruct (match_here (Star a :: ps) (Some c) s); [reflexivity|].
        apply (IH prev (String c s)).
      * apply (IH prev (String c s)).
  - simpl. rewrite word_boundary_lower.
    destruct (word_boundary prev s); [apply IH|reflexivity].
  - simpl. destruct s as [|c s]; [apply (IH prev EmptyString)|reflexivity].
Qed.

(** X11: Matching ignores the case of the name: a pattern selects a name
    exactly when it selects the name written in small letters, so two names
    that differ only in case are selected together. *)
Theorem glob_ignores_case (pat : string) :
  (forall name, glob pat (lower_str name) = glob pat name)
  /\ (forall n1 n2, lower_str n1 = lower_str n2 -> glob pat n1 = glob pat n2).
Proof.
  assert (Hl : forall name, glob pat (lower_str name) = glob pat name).
  { intros name. unfold glob, re_match.
    pose proof (match_here_lower (translate pat) None name) as Hm.
    change (option_map lower None) with (@None ascii) in Hm. rewrite Hm.
    destruct (match_here (translate pat) None name); reflexivity. }
  split; [exact Hl|]. intros n1 n2 Heq.
  now rewrite <- (Hl n1), <- (Hl n2), Heq.
Qed.

Lemma glob_ignores_case_witness :
  glob "xiphos [a-f]*" "XIPHOS AVIONICS" = glob "xiphos [a-f]*" "Xiphos Avionics".
Proof.
  apply (proj2 (glob_ignores_case "xiphos [a-f]*")). reflexivity.
Defined.

End ResolverMoreProofs.

(** ** Exit status, items from files, message level *)

Section MainMoreProofs.

Import Resolver Main MainSpec MoreSpec Display.




Lemma add_file_items_concat (files : list (list string)) :
  forall items, add_file_items items files = extend_new items (concat files).
Proof.
  unfold add_file_items. induction files as [|f files IH]; intros items; [reflexivity|].
  simpl. rewrite IH. now rewrite extend_new_app.
Qed.

(** X13: The items read from files come after the items of the command line,
    which stay as they are; a line is added once, at its first occurrence,
    and only when it is not yet among the items. *)
Theorem add_file_items_appends (items : list string) (files : list (list string)) :
  exists added,
    add_file_items items files = items ++ added
    /\ NoDup added
    /\ (forall line, In line added <-> In line (concat files) /\ ~ In line items).
Proof.
  rewrite add_file_items_concat, extend_new_dedup.
  eexists. split; [reflexivity|]. split; [apply dedup_NoDup|].
  intros line. rewrite dedup_In, filter_In, negb_true_iff.
  assert (Hin : str_in line items = false <-> ~ In line items).
  { rewrite <- str_in_In. destruct (str_in line items); split; intros Hx;
      solve [reflexivity | discriminate | now destruct Hx]. }
  tauto.
Qed.

Lemma add_file_items_appends_witness :
  exists added,
    add_file_items ["ash*"; "ember*"]%string
      [["ember*"; "frost*"]; ["frost*"; "ash*"; "nova*"]]%string
    = ["ash*"; "ember*"]%string ++ added
    /\ In "nova*"%string added.
Proof.
  destruct (add_file_items_appends ["ash*"; "ember*"]%string
              [["ember*"; "frost*"]; ["frost*"; "ash*"; "nova*"]]%string)
    as (added & Heq & _ & Hin).
  exists added. split; [exact Heq|]. apply Hin. split.
  - simpl. auto 10.
  - simpl. intuition discriminate.
Defined.

Lemma land_pow2 (x i : Z) :
  0 <= i -> (Z.land x (2 ^ i) =? 0) = negb (Z.testbit x i).
Proof.
  intros Hi. destruct (Z.testbit x i) eqn:Hb; simpl.
  - apply Z.eqb_neq. intros Hz.
    assert (Ht : Z.testbit (Z.land x (2 ^ i)) i = true)
      by (rewrite Z.land_spec, Hb, Z.pow2_bits_true; auto).
    rewrite Hz, Z.bits_0 in Ht. discriminate.
  - apply Z.eqb_eq. apply Z.bits_inj'. intros n Hn.
    rewrite Z.land_spec, Z.bits_0, Z.pow2_bits_eqb by assumption.
    destruct (Z.eqb_spec i n) as [<-|]; [now rewrite Hb|apply andb_false_r].
Qed.

(** X14: Without [--debug], the message class tested with [verbose & 2^i] is
    switched on exactly when [-v] was given more than [i] times beyond the
    number of [-q]: one [-v] reports cache use, a second one the requests
    as well, and so on. *)
Theorem verbose_level_bits (verbose quiet i : Z) :
  0 <= i ->
  enabled (verbose_level None verbose quiet) (2 ^ i) = (i <? verbose - quiet).
Proof.
  intros Hi. unfold enabled, verbose_level. rewrite land_pow2 by assumption.
  rewrite negb_involutive.
  destruct (Z.leb_spec verbose quiet) as [Hle|Hgt].
  - rewrite Z.bits_0. symmetry. apply Z.ltb_ge. lia.
  - rewrite Z.shiftl_1_l.
    replace (2 ^ (verbose - quiet) - 1) with (Z.ones (verbose - quiet))
      by (rewrite Z.ones_equiv; lia).
    destruct (Z.ltb_spec i (verbose - quiet)).
    + apply Z.ones_spec_low. lia.
    + apply Z.ones_spec_high. lia.
Qed.

Lemma verbose_level_bits_witness :
  enabled (verbose_level None 2 0) 2 = true
  /\ enabled (verbose_level None 2 0) 4 = false.
Proof.
  split.
  - apply (verbose_level_bits 2 0 1). lia.
  - apply (verbose_level_bits 2 0 2). lia.
Defined.

End MainMoreProofs.

(** ** Clearing the cache *)

Section ClearProofs.

Import Clear MoreSpec.




End ClearProofs.

(** ** The catalog, the orders of an item, and the cache over time *)

Section CatalogProofs.

Import Resolver Orders Cache CacheSpec Catalog ResolverSpec MoreSpec.

Context {J : Type} `{Backend J} `{Payload J}.
Context (cache_dir platform language : string).

Lemma str_leb_total (a b : string) : str_leb a b = false -> str_leb b a = true.
Proof.
  revert b. induction a as [|x a IH]; intros [|y b]; simpl; try easy.
  destruct (Z.ltb_spec (code x) (code y)); [discriminate|].
  destruct (Z.ltb_spec (code y) (code x)); [reflexivity|]. apply IH.
Qed.

Lemma str_leb_trans (a b c : string) :
  str_leb a b = true -> str_leb b c = true -> str_leb a c = true.
Proof.
  revert b c. induction a as [|x a IH]; intros [|y b] [|z c]; simpl; try easy.
  destruct (Z.ltb_spec (code x) (code y)), (Z.ltb_spec (code y) (code z)),
    (Z.ltb_spec (code x) (code z)); try reflexivity; try lia;
    destruct (Z.ltb_spec (code y) (code x)); try discriminate; try lia;
    destruct (Z.ltb_spec (code z) (code y)); try discriminate; try lia;
    destruct (Z.ltb_spec (code z) (code x)); try lia.
  apply IH.
Qed.

Lemma insert_by_perm {A : Type} (le : A -> A -> bool) (x : A) (l : list A) :
  Permutation (insert_by le x l) (x :: l).
Proof.
  induction l as [|y l IH]; simpl; [reflexivity|].
  destruct (le x y); [reflexivity|]. rewrite IH. apply perm_swap.
Qed.

Lemma sort_by_perm {A : Type} (le : A -> A -> bool) (l : list A) :
  Permutation (sort_by le l) l.
Proof.
  induction l as [|x l IH]; [reflexivity|].
  unfold sort_by in *. simpl. rewrite insert_by_perm. now constructor.
Qed.

Lemma sort_by_sorted {A : Type} (le : A -> A -> bool) (l : list A) :
  (forall a b, le a b = false -> le b a = true) ->
  (forall a b c, le a b = true -> le b c = true -> le a c = true) ->
  StronglySorted (fun a b => le a b = true) (sort_by le l).
Proof.
  intros Htot Htrans. induction l as [|x l IH]; [constructor|].
  unfold sort_by in *. simpl. revert IH. generalize (foldr (insert_by le) [] l).
  intros s Hs. induction Hs as [|y s Hs IHs Hall]; simpl.
  - repeat constructor.
  - destruct (le x y) eqn:Hxy.
    + constructor; [now constructor|]. constructor; [assumption|].
      eapply Forall_impl; [exact Hall|]. simpl. eauto.
    + constructor; [assumption|].
      eapply Permutation_Forall; [symmetry; apply insert_by_perm|].
      constructor; [now apply Htot|assumption].
Qed.

Lemma names_sorted (l : list Item) :
  StronglySorted name_le l ->
  StronglySorted (fun a b => str_leb a b = true) (map item_name l).
Proof.
  induction 1 as [|x l Hs IH Hall]; simpl; constructor; [assumption|].
  apply Forall_map. exact Hall.
Qed.

(** X16: [GetAllItems] returns the items of the response in the order of their
    display names, each as often as the response has it; every list of
    matches drawn from that catalog is then in the order of the names too,
    which is why the program sorts once.  A failure of [GetData] or a
    response without items is passed on. *)
Theorem GetAllItems_sorted (ttl : option Z) (w : World) :
  match GetData cache_dir platform language "all_items"
          "https://api.warframe.market/v1/items" "all items" ttl w with
  | (Ret data, w') =>
      match payload_items data with
      | Ret raw =>
          exists items,
            GetAllItems cache_dir platform language ttl w = (Ret items, w')
            /\ Permutation items raw
            /\ StronglySorted name_le items
            /\ forall pat,
                StronglySorted (fun a b => str_leb a b = true)
                  (FindMatchingItems pat items)
      | Raise e => GetAllItems cache_dir platform language ttl w = (Raise e, w')
      end
  | (Raise e, w') => GetAllItems cache_dir platform language ttl w = (Raise e, w')
  end.
Proof.
  unfold GetAllItems, bind.
  destruct (GetData cache_dir platform language "all_items"
              "https://api.warframe.market/v1/items" "all items" ttl w)
    as [[data|e] w']; [|reflexivity].
  unfold lift. destruct (payload_items data) as [raw|e]; [|reflexivity].
  eexists. split; [reflexivity|]. split; [apply sort_by_perm|].
  assert (Hs : StronglySorted name_le
                 (sort_by (fun a b => str_leb (item_name a) (item_name b)) raw)).
  { apply (sort_by_sorted (fun a b => str_leb (item_name a) (item_name b))).
    - intros a b. apply str_leb_total.
    - intros a b c. apply str_leb_trans. }
  split; [exact Hs|]. intros pat.
  eapply StronglySorted_sublist; [|apply names_sorted; exact Hs].
  rewrite FindMatchingItems_unfold.
  destruct (List.filter (glob pat) _) eqn:Hf.
  - apply sublist_List_filter.
  - rewrite <- Hf. apply sublist_List_filter.
Qed.

Lemma find_name_none (name : string) (all_items : list Item) :
  ~ In name (map item_name all_items) ->
  List.find (fun i => String.eqb (item_name i) name) all_items = None.
Proof.
  intros Hnot. destruct (List.find _ all_items) as [item|] eqn:Hf; [|reflexivity].
  apply find_some in Hf as [Hin Heq]. apply String.eqb_eq in Heq.
  exfalso. apply Hnot. rewrite <- Heq. now apply in_map.
Qed.

Lemma find_name_some (name : string) (all_items : list Item) :
  In name (map item_name all_items) ->
  exists item,
    List.find (fun i => String.eqb (item_name i) name) all_items = Some item
    /\ In item all_items /\ item_name item = name.
Proof.
  intros Hin. destruct (List.find _ all_items) as [item|] eqn:Hf.
  - exists item. split; [reflexivity|]. apply find_some in Hf as [Hi Heq].
    apply String.eqb_eq in Heq. auto.
  - apply in_map_iff in Hin as (i & Hname & Hi).
    pose proof (find_none _ _ Hf i Hi) as Hno. simpl in Hno.
    rewrite Hname, String.eqb_refl in Hno. discriminate.
Qed.

(** X17: [GetItemOrders] raises [NameError] for a name that no item of the
    catalog has, before any file or network operation.  For a name that
    [FindMatchingItems] returned it never does: it goes on to [GetData]
    with the cache file and the address of an item of the catalog that
    has that name. *)
Theorem GetItemOrders_lookup (ttl : option Z) (all_items : list Item) (name : string)
    (w : World) :
  (~ In name (map item_name all_items) ->
   GetItemOrders cache_dir platform language ttl all_items name w
   = (Raise NameError, w))
  /\ (forall pat,
        In name (FindMatchingItems pat all_items) ->
        exists item,
          In item all_items /\ item_name item = name
          /\ GetItemOrders cache_dir platform language ttl all_items name w
             = bind (GetData cache_dir platform language
                       (url_name item +:+ "-orders")
                       ("https://api.warframe.market/v1/items/"
                          +:+ url_name item +:+ "/orders")
                       ("orders for `" +:+ name +:+ "'") ttl)
                 (fun data => lift (payload_orders data)) w).
Proof.
  split.
  - intros Hnot. unfold GetItemOrders. now rewrite find_name_none.
  - intros pat Hin.
    assert (Hname : In name (map item_name all_items)).
    { rewrite FindMatchingItems_unfold in Hin.
      destruct (List.filter (glob pat) (map item_name all_items)) eqn:Hf.
      - now apply filter_In in Hin.
      - rewrite <- Hf in Hin. now apply filter_In in Hin. }
    destruct (find_name_some name all_items Hname) as (item & Hfind & Hi & Hn).
    exists item. split; [assumption|]. split; [assumption|].
    unfold GetItemOrders. now rewrite Hfind.
Qed.


End CatalogProofs.

Lemma GetItemOrders_lookup_witness :
  let catalog := [Resolver.mk_Item "Ash Prime Set" "ash_prime_set"] in
  let w := {| Cache.clock := 0; Cache.fs := (∅ : gmap string Cache.node); Cache.log := [] |} in
  Catalog.GetItemOrders (H := CacheSpec.example_backend)
    (H0 := MoreSpec.example_payload) "/cache" "pc" "en" None catalog "Ash Prime" w
  = (Raise NameError, w)
  /\ exists item,
       In item catalog /\ Resolver.item_name item = "Ash Prime Set"%string
       /\ Catalog.GetItemOrders (H := CacheSpec.example_backend)
            (H0 := MoreSpec.example_payload) "/cache" "pc" "en" None catalog
            "Ash Prime Set" w
          = Cache.bind
              (Cache.GetData (H := CacheSpec.example_backend) "/cache" "pc" "en"
                 (Resolver.url_name item +:+ "-orders")
                 ("https://api.warframe.market/v1/items/" +:+ Resolver.url_name item +:+ "/orders")
                 ("orders for `" +:+ "Ash Prime Set" +:+ "'") None)
              (fun data =>
                 Catalog.lift
                   (Catalog.payload_orders (Payload := MoreSpec.example_payload) data)) w.
Proof.
  intros catalog w. split.
  - apply (@GetItemOrders_lookup string CacheSpec.example_backend
             MoreSpec.example_payload "/cache" "pc" "en" None catalog "Ash Prime" w).
    simpl. intuition discriminate.
  - apply (proj2 (@GetItemOrders_lookup string CacheSpec.example_backend
                    MoreSpec.example_payload "/cache" "pc" "en" None catalog
                    "Ash Prime Set" w) "ash*"%string).
    left. reflexivity.
Defined.


(** ** Throttling over a run of requests *)

Section ThrottleMoreProofs.

Import Throttle MoreSpec.

Lemma ThrottleRequests_records (delay lag : Z) (st : State) :
  last_request (ThrottleRequests delay lag st)
  = Some (clock (ThrottleRequests delay lag st)).
Proof.
  unfold ThrottleRequests. destruct (last_request st) as [last|]; [|reflexivity].
  destruct (500 <=? last + delay - clock st); reflexivity.
Qed.

Lemma ThrottleRequests_next (delay lag last : Z) (st : State) :
  0 <= lag -> last_request st = Some last ->
  last + (delay - 500) < clock (ThrottleRequests delay lag st).
Proof.
  intros Hlag Hl.
  destruct (Z.le_gt_cases 500 (last + delay - clock st)) as [Hrem|Hrem].
  - rewrite (ThrottleRequests_sleeps delay lag last st Hl Hrem). simpl. lia.
  - rewrite ThrottleRequests_passes by (rewrite Hl; assumption). simpl. lia.
Qed.

(** X19: A call of [ThrottleRequests] never moves the clock back, holds the
    request up by no more than the request delay and the oversleep of the
    system, sleeps at most once, for at least 500 microseconds and at most
    the request delay, and leaves the time of the last request at the
    current time, given that it was not in the future before. *)
Theorem ThrottleRequests_bounded (delay lag : Z) (st : State) :
  0 <= lag -> 0 <= delay -> well_timed st ->
  let st' := ThrottleRequests delay lag st in
  well_timed st'
  /\ last_request st' = Some (clock st')
  /\ clock st <= clock st' <= clock st + delay + lag
  /\ exists naps,
       slept st' = slept st ++ naps /\ (length naps <= 1)%nat
       /\ Forall (fun d => 500 <= d <= delay) naps.
Proof.
  intros Hlag Hdelay Hwt st'. subst st'. unfold well_timed in *.
  rewrite ThrottleRequests_records. split; [lia|]. split; [reflexivity|].
  destruct (last_request st) as [last|] eqn:Hl.
  - destruct (Z.le_gt_cases 500 (last + delay - clock st)) as [Hrem|Hrem].
    + rewrite (ThrottleRequests_sleeps delay lag last st Hl Hrem). simpl.
      split; [lia|]. exists [last + delay - clock st].
      split; [reflexivity|]. split; [simpl; lia|]. repeat constructor; lia.
    + rewrite ThrottleRequests_passes by (rewrite Hl; assumption). simpl.
      split; [lia|]. exists []. rewrite app_nil_r. repeat constructor.
  - rewrite ThrottleRequests_passes by (now rewrite Hl). simpl.
    split; [lia|]. exists []. rewrite app_nil_r. repeat constructor.
Qed.

Lemma ThrottleRequests_bounded_witness :
  let st := {| clock := 5000000; last_request := Some 4800000; slept := [] |} in
  clock st <= clock (ThrottleRequests 333333 20 st) <= clock st + 333333 + 20.
Proof.
  intros st.
  destruct (ThrottleRequests_bounded 333333 20 st) as (_ & _ & Hclock & _);
    [lia | lia | unfold well_timed; simpl; lia | exact Hclock].
Defined.

Lemma throttle_run_head (delay : Z) (steps : list (Z * Z)) :
  forall st last,
    Forall (fun step => 0 <= fst step /\ 0 <= snd step) steps ->
    last_request st = Some last -> last <= clock st ->
    HdRel (fun a b => a + (delay - 500) < b) last (throttle_run delay steps st).
Proof.
  destruct steps as [|[lag dt] steps]; intros st last Hall Hl Hle; simpl;
    constructor.
  inversion Hall as [|? ? [Hlag _] _]; subst. simpl in Hlag.
  now apply ThrottleRequests_next.
Qed.

(** X20: In a run of throttled requests the times recorded for two requests in
    a row are more than the request delay less 500 microseconds apart,
    however long the requests take and however much every sleep
    overshoots. *)
Theorem throttle_run_spaced (delay : Z) (steps : list (Z * Z)) (st : State) :
  Forall (fun step => 0 <= fst step /\ 0 <= snd step) steps ->
  Sorted (fun a b => a + (delay - 500) < b) (throttle_run delay steps st).
Proof.
  revert st. induction steps as [|[lag dt] steps IH]; intros st Hall; simpl;
    [constructor|].
  inversion Hall as [|? ? [Hlag Hdt] Hrest]; subst. simpl in Hlag, Hdt.
  constructor; [now apply IH|].
  apply throttle_run_head; [assumption| |simpl; lia].
  simpl. apply ThrottleRequests_records.
Qed.

Lemma throttle_run_spaced_witness :
  Sorted (fun a b => a + (1000000 - 500) < b)
    (throttle_run 1000000 [(0, 200000); (30, 999700); (0, 5000000); (10, 0)]
       {| clock := 0; last_request := None; slept := [] |}).
Proof.
  apply throttle_run_spaced. repeat constructor; simpl; lia.
Defined.

End ThrottleMoreProofs.
